(** * Lyapunov exponents of the Henon map: a shallow embedding of
      [Lyapunov/lyapunov.py] and the properties of its specification.

    Numbers.  The program computes with numpy's float64, and two models of
    them are used.

    The statements about control flow, indices, exceptions, the order of
    calls and comparisons are made over [float]: the reals extended with the
    three IEEE-754 special values that numpy produces instead of raising
    ([np.log(0.0)] is [-inf], [0.0 / 0.0] is [nan], both with a warning
    only).  Rounding, overflow, underflow and the sign of zero are not
    modelled there: a finite result is the exact real, and zero is the
    positive zero (every divisor of the program is a sum of squares or an
    integer count).

    The self-projection identity of [proj_vect] is decided by overflow and
    underflow, so it is stated over the binary64 format itself: module
    [Binary64] embeds [norm_vect], [inner_vect] and [proj_vect] over the
    primitive floats, whose operations the Standard Library specifies
    (round to nearest, ties to even).

    Errors.  Python exceptions are the [Raise] results of a small error
    monad; the calls that [calc_lya_henon] makes are recorded by a trace
    monad on top of it. *)

From Stdlib Require Import Reals Lra List ZArith Lia Bool.
From Stdlib Require PrimFloat SpecFloat FloatOps FloatAxioms.
Import ListNotations.

Local Open Scope R_scope.

(* ------------------------------------------------------------------ *)
(** ** Exceptions and the error monad *)

Inductive exn : Type :=
| IndexError
| ValueError
| ZeroDivisionError
| UnboundLocalError
| TypeError.

Inductive result (A : Type) : Type :=
| Ok (a : A)
| Raise (e : exn).

Arguments Ok {A} a.
Arguments Raise {A} e.

Definition bind {A B : Type} (m : result A) (k : A -> result B) : result B :=
  match m with
  | Ok a => k a
  | Raise e => Raise e
  end.

Notation "x <- m ;; k" := (bind m (fun x => k))
  (at level 61, m at next level, right associativity).

(** [for i in l: s = body(i, s)], stopping at the first exception. *)
Fixpoint for_each {I S : Type} (l : list I) (body : I -> S -> result S)
  (s : S) : result S :=
  match l with
  | [] => Ok s
  | i :: l' => s' <- body i s ;; for_each l' body s'
  end.

(** [[f(x) for x in l]], stopping at the first exception. *)
Fixpoint map_result {A B : Type} (f : A -> result B) (l : list A)
  : result (list B) :=
  match l with
  | [] => Ok []
  | x :: l' => y <- f x ;; ys <- map_result f l' ;; Ok (y :: ys)
  end.

(** [range(n)] and [range(1, N)]. *)
Definition range (n : nat) : list nat := seq 0 n.

Definition range_from_1 (N : Z) : list Z :=
  map Z.of_nat (seq 1 (Z.to_nat (N - 1))).

(** [l[i]] for a non-negative index. *)
Definition getitem {A : Type} (l : list A) (i : nat) : result A :=
  match nth_error l i with
  | Some a => Ok a
  | None => Raise IndexError
  end.

(** [l[i]] for a Python integer: a negative index counts from the end. *)
Definition getitemZ {A : Type} (l : list A) (i : Z) : result A :=
  if (0 <=? i)%Z then getitem l (Z.to_nat i)
  else if (0 <=? Z.of_nat (length l) + i)%Z
       then getitem l (Z.to_nat (Z.of_nat (length l) + i))
       else Raise IndexError.

(** [l[i] = x] for an index in range (the program writes no other). *)
Fixpoint setitem {A : Type} (l : list A) (i : nat) (x : A) : list A :=
  match l, i with
  | [], _ => []
  | _ :: l', O => x :: l'
  | a :: l', S i' => a :: setitem l' i' x
  end.

(** [l[c:]]: a negative [c] keeps the last [-c] elements. *)
Definition slice_from {A : Type} (l : list A) (c : Z) : list A :=
  if (0 <=? c)%Z then skipn (Z.to_nat c) l
  else skipn (Z.to_nat (Z.of_nat (length l) + c)) l.

(* ------------------------------------------------------------------ *)
(** ** float64 values *)

Inductive float : Type :=
| Fin (r : R)
| PInf
| NInf
| NaN.

Definition of_Z (z : Z) : float := Fin (IZR z).

Definition fneg (a : float) : float :=
  match a with
  | Fin x => Fin (- x)
  | PInf => NInf
  | NInf => PInf
  | NaN => NaN
  end.

Definition fadd (a b : float) : float :=
  match a, b with
  | NaN, _ | _, NaN => NaN
  | Fin x, Fin y => Fin (x + y)
  | PInf, NInf | NInf, PInf => NaN
  | PInf, _ | _, PInf => PInf
  | NInf, _ | _, NInf => NInf
  end.

Definition fsub (a b : float) : float := fadd a (fneg b).

(** The product of an infinity of sign [pos] and the real [x]. *)
Definition inf_times (pos : bool) (x : R) : float :=
  if Rlt_dec 0 x then (if pos then PInf else NInf)
  else if Rlt_dec x 0 then (if pos then NInf else PInf)
  else NaN.

Definition fmul (a b : float) : float :=
  match a, b with
  | NaN, _ | _, NaN => NaN
  | Fin x, Fin y => Fin (x * y)
  | Fin x, PInf | PInf, Fin x => inf_times true x
  | Fin x, NInf | NInf, Fin x => inf_times false x
  | PInf, PInf | NInf, NInf => PInf
  | PInf, NInf | NInf, PInf => NInf
  end.

Definition fdiv (a b : float) : float :=
  match a, b with
  | NaN, _ | _, NaN => NaN
  | Fin x, Fin y =>
      if Req_dec_T y 0 then inf_times true x else Fin (x / y)
  | Fin _, (PInf | NInf) => Fin 0
  | PInf, Fin y => if Rlt_dec y 0 then NInf else PInf
  | NInf, Fin y => if Rlt_dec y 0 then PInf else NInf
  | (PInf | NInf), (PInf | NInf) => NaN
  end.

(** [np.log]. *)
Definition flog (a : float) : float :=
  match a with
  | Fin x => if Rlt_dec 0 x then Fin (ln x)
             else if Rlt_dec x 0 then NaN else NInf
  | PInf => PInf
  | NInf => NaN
  | NaN => NaN
  end.

(** [a < b] and [a > b]: false as soon as one side is [nan]. *)
Definition flt (a b : float) : bool :=
  match a, b with
  | NaN, _ | _, NaN => false
  | Fin x, Fin y => if Rlt_dec x y then true else false
  | NInf, (Fin _ | PInf) => true
  | Fin _, PInf => true
  | _, _ => false
  end.

Definition fgt (a b : float) : bool := flt b a.

(** [a <= b], again false as soon as one side is [nan]. *)
Definition fle (a b : float) : bool :=
  match a, b with
  | NaN, _ | _, NaN => false
  | Fin x, Fin y => if Rle_dec x y then true else false
  | NInf, _ => true
  | _, PInf => true
  | _, _ => false
  end.

(** The builtins [max(a, b)] and [min(a, b)]: the second argument replaces
    the first when it compares strictly greater (smaller). *)
Definition pymax (a b : float) : float := if fgt b a then b else a.
Definition pymin (a b : float) : float := if flt b a then b else a.

(** [max(l)] and [min(l)] of a list; [ValueError] on the empty list. *)
Definition pymax_list (l : list float) : result float :=
  match l with
  | [] => Raise ValueError
  | x :: l' => Ok (fold_left pymax l' x)
  end.

Definition pymin_list (l : list float) : result float :=
  match l with
  | [] => Raise ValueError
  | x :: l' => Ok (fold_left pymin l' x)
  end.

(** The builtin [sum(values)], which starts from the integer 0. *)
Definition pysum (values : list float) : float :=
  fold_left fadd values (Fin 0).

(* ------------------------------------------------------------------ *)
(** ** Vectors (one-dimensional numpy arrays) and VectorOps *)

Definition vec : Type := list float.

(** [s * v] and [v / s] for a scalar [s]. *)
Definition vscale (s : float) (v : vec) : vec := map (fmul s) v.
Definition vdiv (v : vec) (s : float) : vec := map (fun x => fdiv x s) v.

Fixpoint zip_with {A B C : Type} (f : A -> B -> C) (l1 : list A)
  (l2 : list B) : list C :=
  match l1, l2 with
  | a :: l1', b :: l2' => f a b :: zip_with f l1' l2'
  | _, _ => []
  end.

(** [u - v] with numpy's broadcasting of a one-element operand. *)
Definition vsub (u v : vec) : result vec :=
  if Nat.eqb (length u) (length v) then Ok (zip_with fsub u v)
  else match u, v with
       | _, [y] => Ok (map (fun x => fsub x y) u)
       | [x], _ => Ok (map (fun y => fsub x y) v)
       | _, _ => Raise ValueError
       end.

(** [norm_vect]: [sum([i*i for i in vector])]. *)
Definition norm_vect (vector : vec) : float :=
  pysum (map (fun i => fmul i i) vector).

(** [[vect1[i] * vect2[i] for i in range(len(vect1))]]. *)
Fixpoint inner_terms (vect1 vect2 : vec) : result (list float) :=
  match vect1, vect2 with
  | [], _ => Ok []
  | _ :: _, [] => Raise IndexError
  | x :: v1, y :: v2 => t <- inner_terms v1 v2 ;; Ok (fmul x y :: t)
  end.

Definition inner_vect (vect1 vect2 : vec) : result float :=
  values <- inner_terms vect1 vect2 ;; Ok (pysum values).

(** [proj_vect].  For an empty [vect1] both sums are the Python integer 0,
    whose quotient raises; in every other case the quotient is a float64
    division. *)
Definition proj_vect (vect1 vect2 : vec) : result vec :=
  i <- inner_vect vect1 vect2 ;;
  match vect1 with
  | [] => Raise ZeroDivisionError
  | _ :: _ => Ok (vscale (fdiv i (norm_vect vect1)) vect1)
  end.

(** [basis(dim)]: rows of zeros with a one added on the diagonal. *)
Definition basis (dim : nat) : list vec :=
  map (fun i => map (fun j => if Nat.eqb i j then Fin 1 else Fin 0)
                    (range dim))
      (range dim).

(* ------------------------------------------------------------------ *)
(** ** VectorOps over binary64

    The same three functions with the arithmetic of the float64 format:
    [mul], [add] and [div] are the primitive binary64 operations, which
    round, overflow to an infinity and underflow to a zero as numpy's
    do. *)

Module Binary64.

Import PrimFloat.

Definition vec : Type := list float.

(** The builtin [sum(values)], which starts from the integer 0. *)
Definition pysum (values : list float) : float :=
  fold_left add values zero.

(** [s * v] for a scalar [s]. *)
Definition vscale (s : float) (v : vec) : vec := map (mul s) v.

(** [norm_vect]: [sum([i*i for i in vector])]. *)
Definition norm_vect (vector : vec) : float :=
  pysum (map (fun i => mul i i) vector).

(** [[vect1[i] * vect2[i] for i in range(len(vect1))]]. *)
Fixpoint inner_terms (vect1 vect2 : vec) : result (list float) :=
  match vect1, vect2 with
  | [], _ => Ok []
  | _ :: _, [] => Raise IndexError
  | x :: v1, y :: v2 => t <- inner_terms v1 v2 ;; Ok (mul x y :: t)
  end.

Definition inner_vect (vect1 vect2 : vec) : result float :=
  values <- inner_terms vect1 vect2 ;; Ok (pysum values).

(** [proj_vect]: [(inner_vect(vect1, vect2) / norm_vect(vect1)) * vect1].
    For an empty [vect1] both sums are the Python integer 0, whose quotient
    raises. *)
Definition proj_vect (vect1 vect2 : vec) : result vec :=
  i <- inner_vect vect1 vect2 ;;
  match vect1 with
  | [] => Raise ZeroDivisionError
  | _ :: _ => Ok (vscale (div i (norm_vect vect1)) vect1)
  end.

End Binary64.

(* ------------------------------------------------------------------ *)
(** ** Orthogonalizer *)

(** One pass of the inner loop of [Gram_Schmidt]:
    [vectors[v] - proj_vect(vectors[j], vectors[v])]. *)
Definition gs_term (vectors : list vec) (v j : nat) : result vec :=
  vv <- getitem vectors v ;;
  vj <- getitem vectors j ;;
  vv' <- getitem vectors v ;;
  p <- proj_vect vj vv' ;;
  vsub vv p.

(** The inner loop for one [v]: every pass overwrites [new_vect], which is
    unbound ([None]) until the first pass. *)
Definition gs_inner (vectors : list vec) (v : nat) (new_vect : option vec)
  : result (option vec) :=
  for_each (range v)
    (fun j _ => t <- gs_term vectors v j ;; Ok (Some t))
    new_vect.

Definition gs_outer (vectors : list vec) (v : nat)
  (st : list vec * option vec) : result (list vec * option vec) :=
  new_vect <- gs_inner vectors v (snd st) ;;
  match new_vect with
  | None => Raise UnboundLocalError
  | Some nv => Ok (fst st ++ [nv], new_vect)
  end.

Definition Gram_Schmidt (vectors : list vec) : result (list vec) :=
  v0 <- getitem vectors 0 ;;
  st <- for_each (seq 1 (length vectors - 1)) (gs_outer vectors)
          ([v0], None) ;;
  Ok (fst st).

(* ------------------------------------------------------------------ *)
(** ** ExponentIterator *)

(** The Jacobian [np.array([[-2*A*x, 1], [B, 0]])]. *)
Definition jacobian (A B x : float) : list vec :=
  [[fmul (fmul (of_Z (-2)) A) x; of_Z 1]; [B; of_Z 0]].

(** One row of a matrix-vector product. *)
Definition dot (row b : vec) : float :=
  match zip_with fmul row b with
  | [] => Fin 0
  | p :: ps => fold_left fadd ps p
  end.

(** [np.matmul(J, b)] for a matrix [J] and a one-dimensional [b]: the
    shapes must agree. *)
Definition matmul (J : list vec) (b : vec) : result vec :=
  if forallb (fun row => Nat.eqb (length row) (length b)) J
  then Ok (map (fun row => dot row b) J)
  else Raise ValueError.

(** The body of [for i in range(dim)]: add the logarithm of the norm of
    [u_nk[i]] to [exponents[i]] and normalise [u_nk[i]]. *)
Definition accumulate (i : nat) (st : list vec * list float)
  : result (list vec * list float) :=
  let '(u_nk, exponents) := st in
  u_i <- getitem u_nk i ;;
  let norm_v := norm_vect u_i in
  e_i <- getitem exponents i ;;
  let exponents' := setitem exponents i (fadd e_i (flog norm_v)) in
  Ok (setitem u_nk i (vdiv u_i norm_v), exponents').

(** Propagation by [J], orthogonalisation, accumulation and normalisation:
    the text of the first step (lines 67 to 75) and of the loop body
    (lines 79 to 86), which differ in the names of their variables only. *)
Definition propagate (dim : nat) (J : list vec) (vectors : list vec)
  (exponents : list float) : result (list vec * list float) :=
  v_nk <- map_result (matmul J) vectors ;;
  sel <- map_result (getitem v_nk) (range dim) ;;
  u_nk <- Gram_Schmidt sel ;;
  for_each (range dim) accumulate (u_nk, exponents).

(** The state of the loop of [Lyapunov]: [J], [u_nk] and [exponents]. *)
Definition lya_state : Type := (list vec * list vec * list float)%type.

(** The exponents that a state of the loop carries. *)
Definition exponents_of (st : lya_state) : list float :=
  let '(_, _, exponents) := st in exponents.

(** The body of [for n in range(1, N)]: the vectors are propagated by the
    current [J], and [J] is rebuilt from [xvalues[n]] afterwards. *)
Definition lya_step (A B : float) (xvalues : list float) (dim : nat)
  (n : Z) (st : lya_state) : result lya_state :=
  let '(J, u_nk, exponents) := st in
  r <- propagate dim J u_nk exponents ;;
  x_n <- getitemZ xvalues n ;;
  Ok (jacobian A B x_n, fst r, snd r).

(** The state after the first step (lines 62 to 75). *)
Definition lya_init (basis : list vec) (xvalues : list float) (A B : float)
  : result lya_state :=
  let dim := length basis in
  let exponents := map (fun _ => of_Z 0) (range dim) in
  x_0 <- getitemZ xvalues 0 ;;
  let J := jacobian A B x_0 in
  r <- propagate dim J basis exponents ;;
  Ok (J, fst r, snd r).

(** The state in which the loop leaves the passes [ns]. *)
Definition lya_loop (ns : list Z) (basis : list vec) (xvalues : list float)
  (A B : float) : result lya_state :=
  st <- lya_init basis xvalues A B ;;
  for_each ns (lya_step A B xvalues (length basis)) st.

Definition Lyapunov (N : Z) (basis : list vec) (xvalues : list float)
  (A B : float) : result (list float) :=
  st <- lya_loop (range_from_1 N) basis xvalues A B ;;
  let '(_, _, exponents) := st in
  map_result (fun i => e <- getitem exponents i ;; Ok (fdiv e (of_Z N)))
             (range (length basis)).

(** The iteration as the specification words it, for comparison: step [n]
    rebuilds [J_n] from [orbitXValues[n]] and propagates by it. *)
Definition spec_step (A B : float) (orbitXValues : list float) (dim : nat)
  (n : Z) (st : list vec * list float) : result (list vec * list float) :=
  x_n <- getitemZ orbitXValues n ;;
  propagate dim (jacobian A B x_n) (fst st) (snd st).

Definition computeSpectrum_spec (N : Z) (initialBasis : list vec)
  (orbitXValues : list float) (A B : float) : result (list float) :=
  let dim := length initialBasis in
  st0 <- spec_step A B orbitXValues dim 0
           (initialBasis, map (fun _ => of_Z 0) (range dim)) ;;
  st <- for_each (range_from_1 N) (spec_step A B orbitXValues dim) st0 ;;
  map_result (fun i => e <- getitem (snd st) i ;; Ok (fdiv e (of_Z N)))
             (range dim).

(* ------------------------------------------------------------------ *)
(** ** AttractorClassifier *)

(** A float operand, or [TypeError] for [None]. *)
Definition as_float (x : option float) : result float :=
  match x with
  | Some v => Ok v
  | None => Raise TypeError
  end.

Definition det_att (lya1 lya2 : option float) (acc : float) : result Z :=
  match lya1 with
  | None => Ok 5%Z
  | Some l1 =>
      if flt l1 (fsub (of_Z 0) acc) then
        l2 <- as_float lya2 ;;
        if fgt l1 (fadd l2 acc) then Ok 0%Z else Ok 1%Z
      else if fgt l1 (fneg acc) && flt l1 acc then Ok 2%Z
      else if fgt l1 (of_Z 0) then
        l2 <- as_float lya2 ;;
        if flt l2 acc then Ok 3%Z else Ok 4%Z
      else Ok 5%Z
  end.

(* ------------------------------------------------------------------ *)
(** ** The external collaborators

    [full_attractor.Henon], [general.determine_point],
    [general.determine_period] and [general.solve_eig_vals] are not part of
    the file; they are parameters of the model.  [Henon] returns the pair
    [(xvalues, yvalues)], with [None] for a diverging orbit;
    [determine_point] returns the attracting point or [None];
    [determine_period] returns [(period, xpoints)] or [None].  The
    eigenvalues may be complex: the program only takes their [abs]. *)

Record Oracles : Type := {
  eigval : Type;
  solve_eig_vals : float -> float -> float -> eigval * eigval;
  eig_abs : eigval -> float;
  Henon : float -> float -> Z -> float -> float -> bool ->
          option (list float) * option (list float);
  determine_point : option (list float) -> option (list float) ->
                    result (option (float * float));
  determine_period : option (list float) -> option (list float) ->
                     result (option (Z * list float))
}.

(* ------------------------------------------------------------------ *)
(** ** ClosedFormEstimators *)

Section ClosedForm.

Context (O : Oracles).

Definition lyapunov_point (xp av bv : float) : list float :=
  let '(sol1, sol2) := solve_eig_vals O xp av bv in
  let lya1 := flog (eig_abs O sol1) in
  let lya2 := flog (eig_abs O sol2) in
  [pymax lya1 lya2; pymin lya1 lya2].

(** [np.mean] of a list. *)
Definition np_mean (l : list float) : float :=
  fdiv (pysum l) (of_Z (Z.of_nat (length l))).

(** The body of [for x in xpoints]. *)
Definition period_body (av bv : float) (x : float)
  (st : list float * list float) : result (list float * list float) :=
  let '(lya1, lya2) := st in
  match lyapunov_point x av bv with
  | [lya_max; lya_min] => Ok (lya1 ++ [lya_max], lya2 ++ [lya_min])
  | _ => Raise ValueError
  end.

Definition lyapunov_period (xpoints : list float) (av bv : float)
  : result (list float) :=
  st <- for_each xpoints (period_body av bv) ([], []) ;;
  let '(lya1, lya2) := st in
  Ok [pymax (np_mean lya1) (np_mean lya2);
      pymin (np_mean lya1) (np_mean lya2)].

End ClosedForm.

(** At the point [xp] the moduli of the two eigenvalues that the oracle
    returns are finite non-negative reals, as the [abs] of a real or
    complex number is. *)
Definition finite_moduli_at (O : Oracles) (av bv xp : float) : Prop :=
  exists r1 r2,
    0 <= r1 /\ 0 <= r2 /\
    eig_abs O (fst (solve_eig_vals O xp av bv)) = Fin r1 /\
    eig_abs O (snd (solve_eig_vals O xp av bv)) = Fin r2.

(** The same at every point of a cycle; nothing is asked of the oracle
    outside the cycle. *)
Definition finite_moduli_on (O : Oracles) (xpoints : list float)
  (av bv : float) : Prop :=
  forall x, In x xpoints -> finite_moduli_at O av bv x.

(** A real or minus infinity: the values that logarithms of finite
    non-negative reals, their sums and their means take. *)
Definition real_or_ninf (a : float) : Prop :=
  match a with
  | Fin _ | NInf => True
  | PInf | NaN => False
  end.

(* ------------------------------------------------------------------ *)
(** ** SpectrumDispatcher *)

(** The arguments [A] and [B] as [isinstance] sees them: a Python float
    (numpy's float64 is one), a Python int, a numpy array, or anything
    else. *)
Inductive pyarg : Type :=
| PyFloat (x : float)
| PyInt (z : Z)
| NdArray (xs : list float)
| PyOther.

Definition is_ndarray (p : pyarg) : bool :=
  match p with NdArray _ => true | _ => false end.

Definition is_float (p : pyarg) : bool :=
  match p with PyFloat _ => true | _ => false end.

Definition is_int (p : pyarg) : bool :=
  match p with PyInt _ => true | _ => false end.

(** The calls that [calc_lya_henon] makes, in the order it makes them. *)
Inductive call : Type :=
| CallHenon (x0 y0 : float) (Ninit : Z) (a b : float) (div : bool)
| CallDeterminePoint (xvalues yvalues : option (list float))
| CallDeterminePeriod (xvalues yvalues : option (list float))
| CallLyapunovPoint (xp a b : float)
| CallLyapunovPeriod (xpoints : list float) (a b : float)
| CallLyapunov (N : Z) (basis : list vec) (xvalues : list float)
    (a b : float).

(** A computation that raises or returns, with the calls made so far. *)
Definition traced (A : Type) : Type := (list call * result A)%type.

Definition tret {A : Type} (a : A) : traced A := ([], Ok a).

Definition tbind {A B : Type} (m : traced A) (k : A -> traced B)
  : traced B :=
  match m with
  | (t, Ok a) => let '(t', r) := k a in (t ++ t', r)
  | (t, Raise e) => (t, Raise e)
  end.

(** A step that makes no call. *)
Definition lift {A : Type} (r : result A) : traced A := ([], r).

(** The call [c], whose outcome is [r]. *)
Definition tcall {A : Type} (c : call) (r : result A) : traced A := ([c], r).

Notation "x <~ m ;; k" := (tbind m (fun x => k))
  (at level 61, m at next level, right associativity).

Fixpoint tfor_each {I S : Type} (l : list I) (body : I -> S -> traced S)
  (s : S) : traced S :=
  match l with
  | [] => tret s
  | i :: l' => s' <~ body i s ;; tfor_each l' body s'
  end.

(** What [calc_lya_henon] returns: two grids, two sequences, [None], or a
    list of exponents. *)
Inductive retval : Type :=
| RetGrid (all_exp1 all_exp2 : list (list (option float)))
| RetSeq (all_exp1 all_exp2 : list (option float))
| RetNone
| RetList (lya : list float).

Section Dispatcher.

Context (O : Oracles).
Context (Ninit cutoff : Z) (start : list float) (div : bool).

(** The local variable [basisVects], unbound until it is assigned. *)
Definition read_local {A : Type} (x : option A) : result A :=
  match x with
  | Some v => Ok v
  | None => Raise UnboundLocalError
  end.

(** The generic path of one cell of a sweep (lines 207 to 213): the
    entries of [lya] are floats, which are the [Some] values here. *)
Definition cell_generic (basisVects : option (list vec))
  (xvalues : list float) (a b : float)
  : traced (option float * option float) :=
  bv <~ lift (read_local basisVects) ;;
  let N := (Ninit - cutoff)%Z in
  let xs := slice_from xvalues cutoff in
  lya <~ tcall (CallLyapunov N bv xs a b) (Lyapunov N bv xs a b) ;;
  lya_0 <~ lift (getitem (map Some lya) 0) ;;
  match lya_0 with
  | Some _ =>
      exp1 <~ lift (pymax_list lya) ;;
      exp2 <~ lift (pymin_list lya) ;;
      tret (Some exp1, Some exp2)
  | None => tret (None, None)
  end.

(** One cell of a sweep (lines 183 to 213, 231 to 261 and 276 to 306):
    the two values appended to the two lists of exponents. *)
Definition sweep_cell (basisVects : option (list vec)) (a b : float)
  : traced (option float * option float) :=
  x0 <~ lift (getitem start 0) ;;
  y0 <~ lift (getitem start 1) ;;
  orbit <~ tcall (CallHenon x0 y0 Ninit a b div)
                 (Ok (Henon O x0 y0 Ninit a b div)) ;;
  let '(xvalues, yvalues) := orbit in
  match xvalues with
  | None => tret (None, None)
  | Some xs =>
      point_attr <~ tcall (CallDeterminePoint xvalues yvalues)
                          (determine_point O xvalues yvalues) ;;
      lim_cycle <~ tcall (CallDeterminePeriod xvalues yvalues)
                         (determine_period O xvalues yvalues) ;;
      match point_attr, lim_cycle with
      | Some p, _ =>
          exp1 <~ tcall (CallLyapunovPoint (fst p) a b)
                        (getitem (lyapunov_point O (fst p) a b) 0) ;;
          exp2 <~ tcall (CallLyapunovPoint (fst p) a b)
                        (getitem (lyapunov_point O (fst p) a b) 1) ;;
          tret (Some exp1, Some exp2)
      | None, Some c =>
          exp1 <~ tcall (CallLyapunovPeriod (snd c) a b)
                        (l <- lyapunov_period O (snd c) a b ;;
                         getitem l 0) ;;
          exp2 <~ tcall (CallLyapunovPeriod (snd c) a b)
                        (l <- lyapunov_period O (snd c) a b ;;
                         getitem l 1) ;;
          tret (Some exp1, Some exp2)
      | None, None => cell_generic basisVects xs a b
      end
  end.

(** A loop over one swept parameter, appending to the two lists. *)
Definition sweep_row (cell : float -> traced (option float * option float))
  (values : list float)
  : traced (list (option float) * list (option float)) :=
  tfor_each values
    (fun v st =>
       e <~ cell v ;;
       tret (fst st ++ [fst e], snd st ++ [snd e]))
    ([], []).

(** The scalar case (lines 313 to 339): the two detectors are called
    before the orbit is tested for divergence. *)
Definition scalar_case (A B : float) : traced retval :=
  x0 <~ lift (getitem start 0) ;;
  y0 <~ lift (getitem start 1) ;;
  orbit <~ tcall (CallHenon x0 y0 Ninit A B div)
                 (Ok (Henon O x0 y0 Ninit A B div)) ;;
  let '(xvalues, yvalues) := orbit in
  let basisVects := basis (length start) in
  point_attr <~ tcall (CallDeterminePoint xvalues yvalues)
                      (determine_point O xvalues yvalues) ;;
  lim_cycle <~ tcall (CallDeterminePeriod xvalues yvalues)
                     (determine_period O xvalues yvalues) ;;
  match xvalues with
  | None => tret RetNone
  | Some xs =>
      match point_attr, lim_cycle with
      | Some p, _ =>
          tcall (CallLyapunovPoint (fst p) A B)
                (Ok (RetList (lyapunov_point O (fst p) A B)))
      | None, Some c =>
          tcall (CallLyapunovPeriod (snd c) A B)
                (l <- lyapunov_period O (snd c) A B ;; Ok (RetList l))
      | None, None =>
          let N := (Ninit - cutoff)%Z in
          let xs' := slice_from xs cutoff in
          tcall (CallLyapunov N basisVects xs' A B)
                (lya <- Lyapunov N basisVects xs' A B ;; Ok (RetList lya))
      end
  end.

(** The value of a scalar argument. *)
Definition scalar_value (p : pyarg) : float :=
  match p with
  | PyFloat x => x
  | PyInt z => of_Z z
  | _ => NaN
  end.

(** The elements of an array argument. *)
Definition array_values (p : pyarg) : list float :=
  match p with
  | NdArray xs => xs
  | _ => []
  end.

Definition calc_lya_henon (A B : pyarg) : traced retval :=
  if is_ndarray A && is_ndarray B then
    let basisVects := basis (length start) in
    grids <~ tfor_each (array_values A)
               (fun a st =>
                  row <~ sweep_row (fun b => sweep_cell (Some basisVects) a b)
                                   (array_values B) ;;
                  tret (fst st ++ [fst row], snd st ++ [snd row]))
               ([], []) ;;
    tret (RetGrid (fst grids) (snd grids))
  else if is_ndarray A && (is_float B || is_int B) then
    seqs <~ sweep_row (fun a => sweep_cell None a (scalar_value B))
                      (array_values A) ;;
    tret (RetSeq (fst seqs) (snd seqs))
  else if is_ndarray B && (is_float A || is_int A) then
    seqs <~ sweep_row (fun b => sweep_cell None (scalar_value A) b)
                      (array_values B) ;;
    tret (RetSeq (fst seqs) (snd seqs))
  else if (is_float A || is_int A) && (is_float B || is_int B) then
    scalar_case (scalar_value A) (scalar_value B)
  else lift (Raise ValueError).

End Dispatcher.

(** The four combinations of arguments that the dispatcher accepts, as
    the specification lists them. *)
Definition is_scalar (p : pyarg) : bool := is_float p || is_int p.

Definition supported_combination (A B : pyarg) : bool :=
  (is_scalar A && is_scalar B) || (is_ndarray A && is_scalar B)
  || (is_scalar A && is_ndarray B) || (is_ndarray A && is_ndarray B).

(** Collaborators for the runs on concrete inputs: the orbit generator
    returns [(xvalues, yvalues)], the detectors return [point] and
    [cycle], and the eigenvalues are 2 and 1/2 at every point. *)
Definition sample_oracles (xvalues yvalues : option (list float))
  (point : option (float * float)) (cycle : option (Z * list float))
  : Oracles :=
  {| eigval := float;
     solve_eig_vals := fun _ _ _ => (Fin 2, Fin (1 / 2));
     eig_abs := fun e => e;
     Henon := fun _ _ _ _ _ _ => (xvalues, yvalues);
     determine_point := fun _ _ => Ok point;
     determine_period := fun _ _ => Ok cycle |}.

(* ------------------------------------------------------------------ *)
(** ** The grid helper *)

(** A component of [np.array(...)]: a grid, a sequence, or a number. *)
Inductive ndval : Type :=
| NdGrid (rows : list (list (option float)))
| NdSeq (entries : list (option float))
| NdNum (x : float).

(** [vals = np.array(r); return vals[0], vals[1]] for a value [r] that
    [calc_lya_henon] returns.  The array of [None] has no dimension, and
    indexing it raises [IndexError]. *)
Definition np_array_pair (r : retval) : result (ndval * ndval) :=
  match r with
  | RetGrid all_exp1 all_exp2 => Ok (NdGrid all_exp1, NdGrid all_exp2)
  | RetSeq all_exp1 all_exp2 => Ok (NdSeq all_exp1, NdSeq all_exp2)
  | RetNone => Raise IndexError
  | RetList lya =>
      v0 <- getitem lya 0 ;;
      v1 <- getitem lya 1 ;;
      Ok (NdNum v0, NdNum v1)
  end.

(** [create_lya_grid]; its defaults are [start = (0, 0)], [N = 10000],
    [cutoff = 1000] and [div = True]. *)
Definition create_lya_grid (O : Oracles) (a_vals b_vals : pyarg)
  (start : list float) (N cutoff : Z) (div : bool)
  : traced (ndval * ndval) :=
  vals <~ calc_lya_henon O N cutoff start div a_vals b_vals ;;
  lift (np_array_pair vals).

(* ------------------------------------------------------------------ *)
(** ** Notions used in the statements *)

(** The inner product of two vectors of reals, summed as [sum] does. *)
Definition dotR (u v : list R) : R :=
  fold_left Rplus (zip_with Rmult u v) 0.

(** A vector of reals with a component that is not zero. *)
Definition nonzero (v : list R) : Prop := exists x, In x v /\ x <> 0.

(** A float that is an infinity or [nan]. *)
Definition non_finite (a : float) : Prop :=
  match a with
  | Fin _ => False
  | _ => True
  end.

(** A grid of [rows] rows and [cols] columns. *)
Definition grid_shape {A : Type} (rows cols : nat) (g : list (list A))
  : Prop :=
  length g = rows /\ Forall (fun r => length r = cols) g.

(** The body of the loops of [calc_lya_henon], which append the two
    results of a pass to two lists. *)
Definition collect {I E1 E2 : Type} (cell : I -> traced (E1 * E2))
  (v : I) (st : list E1 * list E2) : traced (list E1 * list E2) :=
  e <~ cell v ;; tret (fst st ++ [fst e], snd st ++ [snd e]).

(** A list of [dim] vectors of dimension 2, and a state of the loop of
    [Lyapunov] made of a 2x2 matrix, [dim] such vectors and [dim]
    accumulators. *)
Definition vectors_2d (dim : nat) (vs : list vec) : Prop :=
  length vs = dim /\ Forall (fun v => length v = 2%nat) vs.

Definition lya_shape (dim : nat) (st : lya_state) : Prop :=
  let '(J, u_nk, exponents) := st in
  vectors_2d 2 J /\ vectors_2d dim u_nk /\ length exponents = dim.

(** The parameter pairs for which a trace of calls generates an orbit. *)
Definition orbits_generated (t : list call) : list (float * float) :=
  flat_map (fun c => match c with
                     | CallHenon _ _ _ a b _ => [(a, b)]
                     | _ => []
                     end) t.

(** An array argument has at least one element. *)
Definition array_not_empty (p : pyarg) : Prop :=
  match p with
  | NdArray [] => False
  | _ => True
  end.

(* ================================================================== *)
(** * Properties *)

(* ------------------------------------------------------------------ *)
(** ** Generic facts about the loops *)

Lemma for_each_app {I S : Type} (l1 l2 : list I)
  (body : I -> S -> result S) (s : S) :
  for_each (l1 ++ l2) body s = (s' <- for_each l1 body s ;; for_each l2 body s').
Proof.
  revert s; induction l1 as [|i l1 IH]; intros s; simpl; [reflexivity|].
  destruct (body i s) as [s'|e]; simpl; [apply IH | reflexivity].
Qed.

(** A loop whose body overwrites the state ends with its last pass. *)
Lemma for_each_overwrite {I S : Type} (f : I -> result S) (l : list I)
  (j : I) (s : option S) :
  (forall i, In i l -> exists r, f i = Ok r) ->
  for_each (l ++ [j]) (fun i _ => t <- f i ;; Ok (Some t)) s
  = (t <- f j ;; Ok (Some t)).
Proof.
  revert s; induction l as [|i l IH]; intros s Hl; simpl.
  - destruct (f j); reflexivity.
  - destruct (Hl i (or_introl eq_refl)) as [r Hr]. rewrite Hr; simpl.
    apply IH. intros i' Hi'. apply Hl. now right.
Qed.

Lemma map_result_length {A B : Type} (f : A -> result B) (l : list A)
  (out : list B) :
  map_result f l = Ok out -> length out = length l.
Proof.
  revert out; induction l as [|x l IH]; intros out; simpl.
  - intros [= <-]. reflexivity.
  - destruct (f x) as [y|e]; simpl; [|discriminate].
    destruct (map_result f l) as [ys|e]; simpl; [|discriminate].
    intros [= <-]. simpl. f_equal. now apply IH.
Qed.

Lemma map_result_nth {A B : Type} (f : A -> result B) (l : list A)
  (out : list B) (i : nat) (x : A) :
  map_result f l = Ok out -> nth_error l i = Some x ->
  exists y, f x = Ok y /\ nth_error out i = Some y.
Proof.
  revert out i; induction l as [|a l IH]; intros out i; simpl.
  - destruct i; discriminate.
  - destruct (f a) as [y|e] eqn:Ha; simpl; [|discriminate].
    destruct (map_result f l) as [ys|e] eqn:Hl; simpl; [|discriminate].
    intros [= <-]. destruct i as [|i]; simpl.
    + intros [= <-]. now exists y.
    + intros Hx. now apply (IH ys i).
Qed.

Lemma map_result_total {A B : Type} (f : A -> result B) (l : list A) :
  (forall x, In x l -> exists y, f x = Ok y) ->
  exists out, map_result f l = Ok out.
Proof.
  induction l as [|a l IH]; intros H; simpl.
  - now exists [].
  - destruct (H a (or_introl eq_refl)) as [y ->]; simpl.
    destruct IH as [ys ->]; [intros x Hx; apply H; now right|].
    simpl. now exists (y :: ys).
Qed.

Lemma getitem_Ok {A : Type} (l : list A) (i : nat) (a : A) :
  getitem l i = Ok a <-> nth_error l i = Some a.
Proof.
  unfold getitem. destruct (nth_error l i); split; congruence.
Qed.

Lemma getitem_in_range {A : Type} (l : list A) (i : nat) :
  (i < length l)%nat -> exists a, getitem l i = Ok a /\ nth_error l i = Some a.
Proof.
  intros H. unfold getitem.
  destruct (nth_error l i) as [a|] eqn:E; [now exists a|].
  apply nth_error_None in E. lia.
Qed.


Lemma for_each_map_result {I B S : Type} (g : I -> result B)
  (body : I -> list B * S -> result (list B * S)) (ks : list I)
  (outs : list B) :
  (forall k b s o, In k ks -> g k = Ok o ->
     exists s', body k (b, s) = Ok (b ++ [o], s')) ->
  map_result g ks = Ok outs ->
  forall b s, exists s', for_each ks body (b, s) = Ok (b ++ outs, s').
Proof.
  revert outs; induction ks as [|k ks IH]; intros outs Hbody; simpl.
  - intros [= <-] b s. exists s. now rewrite app_nil_r.
  - destruct (g k) as [o|e] eqn:Hk; simpl; [|discriminate].
    destruct (map_result g ks) as [os|e] eqn:Hks; simpl; [|discriminate].
    intros [= <-] b s.
    destruct (Hbody k b s o (or_introl eq_refl) Hk) as [s1 ->]; simpl.
    destruct (IH os) with (b := b ++ [o]) (s := s1) as [s2 ->]; auto.
    + intros k' b' s' o' Hin. apply Hbody. now right.
    + exists s2. now rewrite <- app_assoc.
Qed.

(* ------------------------------------------------------------------ *)
(** ** VectorOps and Orthogonalizer *)

Lemma inner_terms_same_length (v1 v2 : vec) :
  length v1 = length v2 -> inner_terms v1 v2 = Ok (zip_with fmul v1 v2).
Proof.
  revert v2; induction v1 as [|x v1 IH]; intros [|y v2]; simpl;
    try discriminate; try reflexivity.
  intros [= H]. now rewrite (IH v2 H).
Qed.

Lemma proj_vect_same_length (v1 v2 : vec) :
  length v1 = length v2 -> v1 <> [] ->
  proj_vect v1 v2
  = Ok (vscale (fdiv (pysum (zip_with fmul v1 v2)) (norm_vect v1)) v1).
Proof.
  intros Hlen Hne. unfold proj_vect, inner_vect.
  rewrite (inner_terms_same_length _ _ Hlen). simpl.
  destruct v1; [contradiction | reflexivity].
Qed.

Lemma vsub_same_length (u v : vec) :
  length u = length v -> vsub u v = Ok (zip_with fsub u v).
Proof.
  intros H. unfold vsub. now rewrite H, Nat.eqb_refl.
Qed.

Lemma vscale_length (s : float) (v : vec) : length (vscale s v) = length v.
Proof. apply length_map. Qed.

(** The vector that [Gram_Schmidt] appends for the index [k]. *)
Lemma gs_term_same_length (d : nat) (vectors : list vec) (v j : nat)
  (vv vj : vec) :
  (0 < d)%nat -> Forall (fun x => length x = d) vectors ->
  nth_error vectors v = Some vv -> nth_error vectors j = Some vj ->
  gs_term vectors v j
  = Ok (zip_with fsub vv
          (vscale (fdiv (pysum (zip_with fmul vj vv)) (norm_vect vj)) vj)).
Proof.
  intros Hd Hall Hv Hj. unfold gs_term.
  rewrite (proj2 (getitem_Ok _ _ _) Hv), (proj2 (getitem_Ok _ _ _) Hj).
  simpl.
  rewrite Forall_forall in Hall.
  pose proof (Hall _ (nth_error_In _ _ Hv)) as Lv.
  pose proof (Hall _ (nth_error_In _ _ Hj)) as Lj.
  rewrite proj_vect_same_length; [|congruence|].
  - simpl. apply vsub_same_length. rewrite vscale_length. congruence.
  - intros ->. simpl in Lj. lia.
Qed.

Lemma gs_inner_last (d : nat) (vectors : list vec) (v : nat)
  (s : option vec) :
  (0 < d)%nat -> Forall (fun x => length x = d) vectors ->
  (1 <= v < length vectors)%nat ->
  gs_inner vectors v s = (t <- gs_term vectors v (v - 1) ;; Ok (Some t)).
Proof.
  intros Hd Hall Hv. unfold gs_inner, range.
  replace v with (S (v - 1)) at 1 by lia.
  rewrite seq_S. simpl (0 + _)%nat.
  apply for_each_overwrite with (f := gs_term vectors v).
  intros i Hi. apply in_seq in Hi.
  destruct (getitem_in_range vectors v) as [vv [_ Hvv]]; [lia|].
  destruct (getitem_in_range vectors i) as [vi [_ Hvi]]; [lia|].
  rewrite (gs_term_same_length d vectors v i vv vi); eauto.
Qed.

(** C4: on a non-empty sequence of vectors of one positive dimension,
    [Gram_Schmidt] returns a sequence of the same length whose first vector
    is the first input vector and whose vector at every index [k >= 1] is
    [vectors[k]] minus the single projection term
    [(inner(vectors[k-1], vectors[k]) / norm(vectors[k-1])) * vectors[k-1]]
    on the preceding input vector, with no normalisation. *)
Theorem Gram_Schmidt_previous_projection (d : nat) (vectors : list vec) :
  vectors <> [] -> (0 < d)%nat ->
  Forall (fun x => length x = d) vectors ->
  exists out,
    Gram_Schmidt vectors = Ok out /\
    length out = length vectors /\
    nth_error out 0 = nth_error vectors 0 /\
    forall k, (1 <= k < length vectors)%nat ->
      exists vk vprev p,
        nth_error vectors k = Some vk /\
        nth_error vectors (k - 1) = Some vprev /\
        proj_vect vprev vk = Ok p /\
        p = vscale (fdiv (pysum (zip_with fmul vprev vk)) (norm_vect vprev))
                   vprev /\
        nth_error out k = Some (zip_with fsub vk p).
Proof.
  intros Hne Hd Hall.
  destruct vectors as [|v0 rest]; [contradiction|].
  set (vectors := v0 :: rest) in *.
  set (g := fun k => gs_term vectors k (k - 1)).
  assert (Hg : forall k, (1 <= k < length vectors)%nat ->
            exists vk vprev,
              nth_error vectors k = Some vk /\
              nth_error vectors (k - 1) = Some vprev /\
              g k = Ok (zip_with fsub vk
                (vscale (fdiv (pysum (zip_with fmul vprev vk))
                              (norm_vect vprev)) vprev)) /\
              proj_vect vprev vk
              = Ok (vscale (fdiv (pysum (zip_with fmul vprev vk))
                                 (norm_vect vprev)) vprev)).
  { intros k Hk.
    destruct (getitem_in_range vectors k) as [vk [_ Hvk]]; [lia|].
    destruct (getitem_in_range vectors (k - 1)) as [vp [_ Hvp]]; [lia|].
    exists vk, vp. repeat split; auto.
    - unfold g. now apply (gs_term_same_length d).
    - rewrite Forall_forall in Hall.
      pose proof (Hall _ (nth_error_In _ _ Hvk)) as Lk.
      pose proof (Hall _ (nth_error_In _ _ Hvp)) as Lp.
      apply proj_vect_same_length; [congruence|].
      intros ->. simpl in Lp. lia. }
  destruct (map_result_total g (seq 1 (length vectors - 1))) as [outs Houts].
  { intros k Hk. apply in_seq in Hk.
    destruct (Hg k) as (vk & vp & _ & _ & E & _); [lia|]. eauto. }
  destruct (for_each_map_result g (gs_outer vectors)
              (seq 1 (length vectors - 1)) outs) with (b := [v0])
    (s := @None vec) as [s' Hloop]; auto.
  { intros k b s o Hk Ho. apply in_seq in Hk.
    unfold gs_outer. simpl fst; simpl snd.
    rewrite (gs_inner_last d); auto; [|lia].
    fold (g k). rewrite Ho. simpl. eauto. }
  exists ([v0] ++ outs). unfold Gram_Schmidt.
  change (getitem vectors 0) with (Ok v0 : result vec).
  unfold bind at 1. rewrite Hloop. simpl bind. simpl fst.
  pose proof (map_result_length _ _ _ Houts) as Hlen.
  rewrite length_seq in Hlen.
  repeat split.
  - simpl. rewrite Hlen. subst vectors. simpl. lia.
  - intros k Hk.
    destruct (Hg k Hk) as (vk & vp & Hvk & Hvp & Egk & Ep).
    exists vk, vp, (vscale (fdiv (pysum (zip_with fmul vp vk)) (norm_vect vp)) vp).
    repeat split; auto.
    destruct (map_result_nth g _ outs (k - 1) k Houts) as [y [Hy Hn]].
    { rewrite nth_error_nth' with (d := 0%nat); [|rewrite length_seq; lia].
      rewrite seq_nth; [f_equal; lia | lia]. }
    rewrite Egk in Hy. injection Hy as <-.
    destruct k as [|k]; [lia|]. simpl. simpl in Hn.
    now rewrite Nat.sub_0_r in Hn.
Qed.

Lemma Gram_Schmidt_previous_projection_witness :
  exists out,
    Gram_Schmidt [[Fin 1; Fin 0]; [Fin 1; Fin 1]] = Ok out /\
    length out = 2%nat.
Proof.
  destruct (Gram_Schmidt_previous_projection 2
              [[Fin 1; Fin 0]; [Fin 1; Fin 1]])
    as (out & Hout & Hlen & _).
  - discriminate.
  - lia.
  - repeat constructor.
  - exists out. split; [exact Hout | exact Hlen].
Defined.

Lemma zip_with_diag {A B : Type} (f : A -> A -> B) (l : list A) :
  zip_with f l l = map (fun x => f x x) l.
Proof. induction l as [|a l IH]; simpl; [reflexivity | now rewrite IH]. Qed.

(* ------------------------------------------------------------------ *)
(** ** VectorOps over binary64: the self-projection *)

Section Binary64Facts.

Import PrimFloat SpecFloat FloatOps FloatAxioms.

(** *** Two laws of binary64, from the specification of its operations *)

(** What the library knows of the mantissa and exponent of a float. *)
Lemma canonical_fexp (m : positive) (e : Z) :
  bounded prec emax m e = true ->
  fexp prec emax (Z.pos (digits2_pos m) + e) = e /\ (e <= emax - prec)%Z.
Proof.
  unfold bounded, canonical_mantissa. intros H.
  apply andb_true_iff in H. destruct H as [H1 H2].
  apply Z.eqb_eq in H1. apply Z.leb_le in H2. auto.
Qed.

(** Rounding a mantissa that already fits keeps it. *)
Lemma shr_fexp_exact (m : positive) (e : Z) :
  fexp prec emax (Z.pos (digits2_pos m) + e) = e ->
  shr_fexp prec emax (Z.pos m) e loc_Exact
  = (Build_shr_record (Z.pos m) false false, e).
Proof.
  intros Hc. unfold shr_fexp. cbn [Zdigits2 shr_record_of_loc].
  rewrite Hc, Z.sub_diag. reflexivity.
Qed.

(** Rounding the product of a mantissa with that of 1.0, which is [2^52]
    at exponent [-52], shifts the 52 zero bits out again. *)
Lemma shr_fexp_shifted (m : positive) (e : Z) :
  fexp prec emax (Z.pos (digits2_pos m) + e) = e ->
  shr_fexp prec emax (Z.pos (Pos.iter xO m 52)) (-52 + e) loc_Exact
  = (Build_shr_record (Z.pos m) false false, e).
Proof.
  intros Hc. unfold shr_fexp. cbn [Zdigits2 shr_record_of_loc].
  assert (Hd : (Z.pos (digits2_pos (Pos.iter xO m 52)) + (-52 + e)
                = Z.pos (digits2_pos m) + e)%Z).
  { cbn [Pos.iter digits2_pos]. repeat rewrite Pos2Z.inj_succ. lia. }
  rewrite Hd, Hc.
  replace (e - (-52 + e))%Z with 52%Z by lia.
  unfold shr. replace (-52 + e + 52)%Z with e by lia.
  reflexivity.
Qed.

Lemma SF64mul_one_finite (s : bool) (m : positive) (e : Z) :
  bounded prec emax m e = true ->
  SF64mul (Prim2SF one) (S754_finite s m e) = S754_finite s m e.
Proof.
  intros Hb. destruct (canonical_fexp m e Hb) as [Hc He].
  change (Prim2SF one) with (S754_finite false 4503599627370496 (-52)).
  unfold SF64mul, SFmul.
  change (xorb false s) with s.
  change (4503599627370496 * m)%positive with (Pos.iter xO m 52).
  unfold binary_round_aux.
  rewrite (shr_fexp_shifted m e Hc).
  cbn [shr_m loc_of_shr_record round_nearest_even].
  rewrite (shr_fexp_exact m e Hc). cbn [shr_m].
  apply Z.leb_le in He. now rewrite He.
Qed.

(** [1.0 * x] is [x], for every float64 [x], [nan] and the infinities
    included. *)
Lemma mul_one_l (x : PrimFloat.float) : mul one x = x.
Proof.
  apply Prim2SF_inj. rewrite mul_spec.
  pose proof (Prim2SF_valid x) as Hv.
  destruct (Prim2SF x) as [s|s| |s m e] eqn:E.
  - reflexivity.
  - reflexivity.
  - reflexivity.
  - apply SF64mul_one_finite. exact Hv.
Qed.

Lemma SF64div_self_finite (s : bool) (m : positive) (e : Z) :
  SF64div (S754_finite s m e) (S754_finite s m e) = Prim2SF one.
Proof.
  unfold SF64div, SFdiv, SFdiv_core_binary.
  rewrite xorb_nilpotent.
  replace (Zdigits2 (Z.pos m) + e - (Zdigits2 (Z.pos m) + e))%Z
    with 0%Z by lia.
  rewrite Z.sub_diag.
  change (Z.min (fexp prec emax 0) 0) with (-53)%Z.
  change (0 - -53)%Z with 53%Z. cbv iota beta.
  rewrite Z.shiftl_mul_pow2 by lia.
  assert (Hq : Z.div_eucl (Z.pos m * 2 ^ 53) (Z.pos m)
               = ((2 ^ 53)%Z, 0%Z)).
  { pose proof (Z.div_eucl_eq (Z.pos m * 2 ^ 53) (Z.pos m)) as H.
    pose proof (Z.mod_pos_bound (Z.pos m * 2 ^ 53) (Z.pos m)) as Hm.
    unfold Z.modulo in Hm.
    destruct (Z.div_eucl (Z.pos m * 2 ^ 53) (Z.pos m)) as [q r].
    assert (Hpos : (0 < Z.pos m)%Z) by lia.
    specialize (H ltac:(lia)). specialize (Hm Hpos).
    assert (q = (2 ^ 53)%Z) by nia. subst q.
    f_equal. lia. }
  rewrite Hq.
  unfold new_location.
  destruct (Z.even (Z.pos m)); reflexivity.
Qed.

(** A float64 that is finite and not a zero has a sign, a mantissa and an
    exponent. *)
Lemma finite_nonzero_spec (s : PrimFloat.float) :
  is_finite s = true -> is_zero s = false ->
  exists sg m e, Prim2SF s = S754_finite sg m e.
Proof.
  unfold is_finite, is_nan, is_infinity, is_zero.
  rewrite !eqb_spec, abs_spec.
  change (Prim2SF zero) with (S754_zero false).
  change (Prim2SF infinity) with (S754_infinity false).
  destruct (Prim2SF s) as [[|]|[|]| |sg m e]; try discriminate; eauto.
Qed.

(** [s / s] is exactly [1.0] for a finite [s] that is not a zero. *)
Lemma div_self (s : PrimFloat.float) :
  is_finite s = true -> is_zero s = false -> div s s = one.
Proof.
  intros Hf Hz. destruct (finite_nonzero_spec s Hf Hz) as (sg & m & e & E).
  apply Prim2SF_inj. rewrite div_spec, E. apply SF64div_self_finite.
Qed.

(** [s / s] is [nan] for every other [s]: a zero, an infinity or [nan]. *)
Lemma div_self_nan (s : PrimFloat.float) :
  is_finite s = false \/ is_zero s = true -> div s s = nan.
Proof.
  unfold is_finite, is_nan, is_infinity, is_zero.
  rewrite !eqb_spec, abs_spec.
  change (Prim2SF zero) with (S754_zero false).
  change (Prim2SF infinity) with (S754_infinity false).
  intros H. apply Prim2SF_inj. rewrite div_spec.
  destruct (Prim2SF s) as [sg|sg| |sg m e]; try reflexivity.
  exfalso. destruct H as [H|H]; [|destruct sg; discriminate].
  unfold SFeqb, SFabs in H. simpl in H.
  rewrite Z.compare_refl, Pos.compare_cont_refl in H.
  destruct sg; discriminate.
Qed.

Lemma mul_nan_l (x : PrimFloat.float) : mul nan x = nan.
Proof. apply Prim2SF_inj. rewrite mul_spec. reflexivity. Qed.

(** *** The self-projection *)

Lemma inner_terms_self (v : Binary64.vec) :
  Binary64.inner_terms v v = Ok (map (fun i => mul i i) v).
Proof.
  induction v as [|x v IH]; simpl; [reflexivity|]. now rewrite IH.
Qed.

(** [inner_vect(v, v)] and [norm_vect(v)] are the same float64: the same
    products, summed in the same order. *)
Lemma inner_vect_self (v : Binary64.vec) :
  Binary64.inner_vect v v = Ok (Binary64.norm_vect v).
Proof. unfold Binary64.inner_vect. now rewrite inner_terms_self. Qed.

(** C5, for a sum of squares that stays in range: for a vector [v] of
    float64 numbers whose [norm_vect(v)], as float64 computes it, is finite
    and not zero, [proj_vect(v, v)] returns [v] exactly: [inner_vect(v, v)]
    is the same float64 as [norm_vect(v)], their quotient is exactly 1.0,
    and [1.0 * x] is [x] for every component. *)
Theorem proj_vect_self_finite (v : Binary64.vec) :
  is_finite (Binary64.norm_vect v) = true ->
  is_zero (Binary64.norm_vect v) = false ->
  Binary64.inner_vect v v = Ok (Binary64.norm_vect v) /\
  div (Binary64.norm_vect v) (Binary64.norm_vect v) = one /\
  Binary64.proj_vect v v = Ok v.
Proof.
  intros Hf Hz. split; [apply inner_vect_self|].
  split; [now apply div_self|].
  unfold Binary64.proj_vect. rewrite inner_vect_self. cbn [bind].
  destruct v as [|x v].
  - discriminate Hz.
  - rewrite div_self by assumption. f_equal. unfold Binary64.vscale.
    rewrite <- (map_id (x :: v)) at 2. apply map_ext. apply mul_one_l.
Qed.

Local Open Scope float_scope.

Lemma proj_vect_self_finite_witness :
  Binary64.inner_vect [3; 4] [3; 4] = Ok 25 /\
  div 25 25 = 1 /\
  Binary64.proj_vect [3; 4] [3; 4] = Ok [3; 4].
Proof.
  apply (proj_vect_self_finite [3; 4]); reflexivity.
Defined.

(** C5, refuted where the squares leave the range of float64: the vector
    [[2^600, 0]] is not the zero vector, its sum of squares overflows to
    [inf], the factor [inf / inf] is [nan], and [proj_vect] returns
    [[nan, nan]]; for [[2^-600, 0]] the sum of squares underflows to
    [0.0], the factor [0.0 / 0.0] is [nan], and the result is [[nan, nan]]
    again. *)
Lemma proj_vect_self_overflow :
  let v := [0x1p600; 0] in
  let w := [0x1p-600; 0] in
  is_zero (nth 0 v 0) = false /\ is_zero (nth 0 w 0) = false /\
  Binary64.norm_vect v = infinity /\ Binary64.norm_vect w = 0 /\
  Binary64.proj_vect v v = Ok [nan; nan] /\
  Binary64.proj_vect w w = Ok [nan; nan] /\
  Binary64.proj_vect v v <> Ok v /\ Binary64.proj_vect w w <> Ok w.
Proof.
  cbv zeta. repeat split; try reflexivity.
  - intros H.
    apply (f_equal (fun r => match r with
                             | Ok (x :: _) => is_nan x
                             | _ => false
                             end)) in H.
    discriminate H.
  - intros H.
    apply (f_equal (fun r => match r with
                             | Ok (x :: _) => is_nan x
                             | _ => false
                             end)) in H.
    discriminate H.
Qed.

(** The other side of the self-projection: when the sum of squares of a
    non-empty vector is computed as a zero, an infinity or [nan],
    [proj_vect(v, v)] raises nothing and returns a vector of the same
    length whose components are all [nan]. *)
Theorem proj_vect_self_nan (v : Binary64.vec) :
  v <> [] ->
  is_finite (Binary64.norm_vect v) = false \/
  is_zero (Binary64.norm_vect v) = true ->
  Binary64.proj_vect v v = Ok (map (fun _ => nan) v).
Proof.
  intros Hne H. unfold Binary64.proj_vect. rewrite inner_vect_self.
  cbn [bind]. destruct v as [|x v]; [contradiction|].
  rewrite div_self_nan by assumption. f_equal. unfold Binary64.vscale.
  apply map_ext. apply mul_nan_l.
Qed.

Lemma proj_vect_self_nan_witness :
  Binary64.proj_vect [0; 0x1p-600; 0] [0; 0x1p-600; 0]
  = Ok [nan; nan; nan].
Proof.
  apply (proj_vect_self_nan [0; 0x1p-600; 0]).
  - discriminate.
  - right. reflexivity.
Defined.

End Binary64Facts.

(* ------------------------------------------------------------------ *)
(** ** AttractorClassifier *)

(** Decides the comparisons of reals that a goal tests. *)
Ltac real_cases :=
  repeat match goal with
    | |- context [Rlt_dec ?a ?b] => destruct (Rlt_dec a b); try lra
    | |- context [Req_dec_T ?a ?b] => destruct (Req_dec_T a b); try lra
    end.

(** Strictly inside the band, the label is 2 (invariant circle). *)
Lemma det_att_inside_band (l1 acc : R) (lya2 : option float) :
  - acc < l1 < acc ->
  det_att (Some (Fin l1)) lya2 (Fin acc) = Ok 2%Z.
Proof.
  intros H. unfold det_att, fgt, of_Z; simpl; real_cases; reflexivity.
Qed.

(** On the lower edge of the band no test of [det_att] succeeds, and the
    label is 5 (no attractor). *)
Lemma det_att_lower_edge (acc : R) (lya2 : option float) :
  0 < acc ->
  det_att (Some (Fin (- acc))) lya2 (Fin acc) = Ok 5%Z.
Proof.
  intros H. unfold det_att, fgt, of_Z; simpl; real_cases; reflexivity.
Qed.

(** C2, at the input [det_att(-0.1, -0.5, 0.1)]: the first exponent is
    exactly minus the tolerance, and the label returned is 5 (no
    attractor), not 2 (invariant circle). *)
Theorem det_att_minus_tolerance :
  det_att (Some (Fin (- (1 / 10)))) (Some (Fin (- (1 / 2)))) (Fin (1 / 10))
  = Ok 5%Z.
Proof. apply det_att_lower_edge. lra. Qed.

(* ------------------------------------------------------------------ *)
(** ** ExponentIterator *)

Lemma for_each_ext_in {I S : Type} (l : list I)
  (body body' : I -> S -> result S) (s : S) :
  (forall i s', In i l -> body i s' = body' i s') ->
  for_each l body s = for_each l body' s.
Proof.
  revert s; induction l as [|i l IH]; intros s H; simpl; [reflexivity|].
  rewrite (H i s (or_introl eq_refl)).
  destruct (body' i s) as [s'|e]; simpl; [|reflexivity].
  apply IH. intros j s'' Hj. apply H. now right.
Qed.

Lemma getitemZ_of_nat {A : Type} (l : list A) (k : nat) :
  getitemZ l (Z.of_nat k) = getitem l k.
Proof.
  unfold getitemZ.
  destruct (0 <=? Z.of_nat k)%Z eqn:E; [now rewrite Nat2Z.id |].
  apply Z.leb_gt in E. lia.
Qed.

(** The passes of the loop, up to and including pass [k]. *)
Lemma range_from_1_snoc (N : Z) :
  (2 <= N)%Z ->
  range_from_1 N
  = map Z.of_nat (seq 1 (Z.to_nat (N - 2))) ++ [(N - 1)%Z].
Proof.
  intros H. unfold range_from_1.
  replace (Z.to_nat (N - 1)) with (S (Z.to_nat (N - 2))) by lia.
  rewrite seq_S, map_app. simpl. do 2 f_equal. lia.
Qed.

Lemma lya_step_agree (A B : float) (xs xs' : list float) (dim : nat)
  (n : Z) (st : lya_state) :
  getitemZ xs n = getitemZ xs' n ->
  lya_step A B xs dim n st = lya_step A B xs' dim n st.
Proof.
  intros H. destruct st as [[J u] e]. unfold lya_step. now rewrite H.
Qed.

Lemma Lyapunov_exponents_of (N : Z) (basis : list vec) (xs : list float)
  (A B : float) :
  Lyapunov N basis xs A B
  = (st <- lya_loop (range_from_1 N) basis xs A B ;;
     map_result (fun i => e <- getitem (exponents_of st) i ;;
                          Ok (fdiv e (of_Z N)))
                (range (length basis))).
Proof.
  unfold Lyapunov. destruct (lya_loop _ _ _ _ _) as [[[J u] e]|err];
    reflexivity.
Qed.

(** The value read by the last pass only decides the Jacobian left
    behind. *)
Lemma lya_step_exponents (A B : float) (xs xs' : list float) (dim : nat)
  (n : nat) (st : lya_state) :
  length xs = length xs' ->
  (s <- lya_step A B xs dim (Z.of_nat n) st ;; Ok (exponents_of s))
  = (s <- lya_step A B xs' dim (Z.of_nat n) st ;; Ok (exponents_of s)).
Proof.
  intros Hlen. destruct st as [[J u] e]. unfold lya_step.
  destruct (propagate dim J u e) as [r|err]; simpl; [|reflexivity].
  rewrite !getitemZ_of_nat. unfold getitem.
  destruct (nth_error xs n) as [x|] eqn:E1;
    destruct (nth_error xs' n) as [x'|] eqn:E2; simpl; try reflexivity.
  - apply nth_error_None in E2.
    assert (n < length xs)%nat by (apply nth_error_Some; congruence). lia.
  - apply nth_error_None in E1.
    assert (n < length xs')%nat by (apply nth_error_Some; congruence). lia.
Qed.

(** C10, for [N >= 2]: two runs of [Lyapunov] on sequences of one length
    that differ at the index [N - 1] only return the same result (the
    same exponents, or the same exception). *)
Theorem Lyapunov_last_value_unused (N : Z) (basis : list vec)
  (xvalues xvalues' : list float) (A B : float) :
  (2 <= N)%Z ->
  length xvalues = length xvalues' ->
  (forall i, i <> Z.to_nat (N - 1) ->
             nth_error xvalues i = nth_error xvalues' i) ->
  Lyapunov N basis xvalues A B = Lyapunov N basis xvalues' A B.
Proof.
  intros HN Hlen Hagree.
  assert (Hget : forall k, k <> Z.to_nat (N - 1) ->
            getitemZ xvalues (Z.of_nat k) = getitemZ xvalues' (Z.of_nat k)).
  { intros k Hk. rewrite !getitemZ_of_nat. unfold getitem.
    now rewrite (Hagree k Hk). }
  rewrite !Lyapunov_exponents_of, (range_from_1_snoc N HN).
  unfold lya_loop.
  assert (Hinit : lya_init basis xvalues A B = lya_init basis xvalues' A B).
  { unfold lya_init. change 0%Z with (Z.of_nat 0).
    rewrite (Hget 0%nat) by lia. reflexivity. }
  rewrite Hinit.
  destruct (lya_init basis xvalues' A B) as [st0|err]; simpl; [|reflexivity].
  rewrite !for_each_app.
  rewrite (for_each_ext_in _ (lya_step A B xvalues (length basis))
             (lya_step A B xvalues' (length basis))).
  2:{ intros n s Hn. apply in_map_iff in Hn. destruct Hn as [k [<- Hk]].
      apply in_seq in Hk. apply lya_step_agree, Hget. lia. }
  destruct (for_each _ (lya_step A B xvalues' (length basis)) st0)
    as [st|err]; simpl; [|reflexivity].
  replace (N - 1)%Z with (Z.of_nat (Z.to_nat (N - 1))) by lia.
  pose proof (lya_step_exponents A B xvalues xvalues' (length basis)
                (Z.to_nat (N - 1)) st Hlen) as Hlast.
  destruct (lya_step A B xvalues _ _ st) as [s1|e1];
    destruct (lya_step A B xvalues' _ _ st) as [s2|e2];
    simpl in Hlast |- *; try discriminate.
  - injection Hlast as ->. reflexivity.
  - exact (f_equal (fun r => match r with
                             | Ok _ => Raise e1
                             | Raise e => Raise e
                             end) Hlast).
Qed.

Lemma Lyapunov_last_value_unused_witness :
  Lyapunov 2 (basis 2) [Fin 1; Fin 0] (Fin 1) (Fin 1)
  = Lyapunov 2 (basis 2) [Fin 1; Fin 7] (Fin 1) (Fin 1).
Proof.
  apply Lyapunov_last_value_unused.
  - lia.
  - reflexivity.
  - intros [|[|i]] Hi; simpl in *; [reflexivity | contradiction | reflexivity].
Defined.

(** *** Runs on concrete orbits *)

Ltac lya_unfold :=
  unfold Lyapunov, computeSpectrum_spec, spec_step, lya_loop, lya_init,
    lya_step, range_from_1, propagate, Gram_Schmidt, gs_outer, gs_inner,
    gs_term, proj_vect, inner_vect, norm_vect, pysum, dot, of_Z; simpl.

Ltac lya_eval := repeat (progress (lya_unfold; real_cases)).

Ltac real_eq := try lra; try (field; repeat split; lra).

(** Rewrites the argument of a logarithm of the goal to the constant [c]. *)
Ltac ln_arg c :=
  match goal with
  | |- context [ln ?e] => progress (replace e with c by real_eq)
  end.

(** Splits an equation between results into equations between reals. *)
Ltac float_eq :=
  repeat match goal with
    | |- Ok _ = Ok _ => f_equal
    | |- (_, _) = (_, _) => f_equal
    | |- _ :: _ = _ :: _ => f_equal
    | |- Fin _ = Fin _ => f_equal
    end.

(** The first step from the orbit value 1, with [A = B = 1]. *)
Lemma propagate_first_example :
  propagate 2 (jacobian (Fin 1) (Fin 1) (Fin 1)) (basis 2) [Fin 0; Fin 0]
  = Ok ([[Fin (-2 / 5); Fin (1 / 5)]; [Fin 1; Fin 2]],
        [Fin (ln 5); Fin (ln (1 / 5))]).
Proof.
  lya_eval. float_eq; real_eq.
  - ln_arg 5. lra.
  - ln_arg (1 / 5). lra.
Qed.

(** The second step as the code takes it: by the Jacobian of the orbit
    value 1 again. *)
Lemma propagate_code_example :
  propagate 2 (jacobian (Fin 1) (Fin 1) (Fin 1))
    [[Fin (-2 / 5); Fin (1 / 5)]; [Fin 1; Fin 2]]
    [Fin (ln 5); Fin (ln (1 / 5))]
  = Ok ([[Fin (25 / 29); Fin (-10 / 29)]; [Fin (2 / 5); Fin 1]],
        [Fin (ln 5 + ln (29 / 25)); Fin (ln (1 / 5) + ln (25 / 29))]).
Proof.
  lya_eval. float_eq; real_eq.
  - ln_arg (29 / 25). lra.
  - ln_arg (25 / 29). lra.
Qed.

(** The second step as the specification words it: by the Jacobian of the
    orbit value 0. *)
Lemma propagate_spec_example :
  propagate 2 (jacobian (Fin 1) (Fin 1) (Fin 0))
    [[Fin (-2 / 5); Fin (1 / 5)]; [Fin 1; Fin 2]]
    [Fin (ln 5); Fin (ln (1 / 5))]
  = Ok ([[Fin 1; Fin (-2)]; [Fin (2 / 5); Fin (1 / 5)]],
        [Fin (ln 5 + ln (1 / 5)); Fin (ln (1 / 5) + ln 5)]).
Proof.
  lya_eval. float_eq; real_eq.
  - ln_arg (1 / 5). lra.
  - ln_arg 5. lra.
Qed.

Lemma Lyapunov_code_example :
  Lyapunov 2 (basis 2) [Fin 1; Fin 0] (Fin 1) (Fin 1)
  = Ok [Fin ((ln 5 + ln (29 / 25)) / 2);
        Fin ((ln (1 / 5) + ln (25 / 29)) / 2)].
Proof.
  unfold Lyapunov, lya_loop, lya_init.
  change (getitemZ [Fin 1; Fin 0] 0) with (Ok (Fin 1)).
  change (length (basis 2)) with 2%nat.
  change (map (fun _ => of_Z 0) (range 2)) with [Fin 0; Fin 0].
  cbn [bind]. rewrite propagate_first_example.
  change (range_from_1 2) with [1%Z].
  cbn [bind for_each lya_step fst snd].
  rewrite propagate_code_example. simpl. real_cases. reflexivity.
Qed.

Lemma computeSpectrum_spec_example :
  computeSpectrum_spec 2 (basis 2) [Fin 1; Fin 0] (Fin 1) (Fin 1)
  = Ok [Fin ((ln 5 + ln (1 / 5)) / 2); Fin ((ln (1 / 5) + ln 5) / 2)].
Proof.
  unfold computeSpectrum_spec, spec_step.
  change (getitemZ [Fin 1; Fin 0] 0) with (Ok (Fin 1)).
  change (length (basis 2)) with 2%nat.
  change (map (fun _ => of_Z 0) (range 2)) with [Fin 0; Fin 0].
  cbn [bind fst snd]. rewrite propagate_first_example.
  change (range_from_1 2) with [1%Z].
  cbn [bind for_each].
  change (getitemZ [Fin 1; Fin 0] 1) with (Ok (Fin 0)).
  cbn [bind fst snd].
  rewrite propagate_spec_example. simpl. real_cases. reflexivity.
Qed.

(** When pass [n + 1] of the loop starts, the Jacobian it propagates by is
    the one built from [xvalues[n]]: the first pass of the loop propagates
    by the Jacobian of the first step once more. *)
Lemma lya_loop_jacobian (n : nat) (basis : list vec) (xvalues : list float)
  (A B : float) (J : list vec) (u_nk : list vec) (exponents : list float) :
  lya_loop (map Z.of_nat (seq 1 n)) basis xvalues A B
  = Ok (J, u_nk, exponents) ->
  exists x, getitem xvalues n = Ok x /\ J = jacobian A B x.
Proof.
  unfold lya_loop. destruct n as [|n].
  - simpl. unfold lya_init. change 0%Z with (Z.of_nat 0).
    rewrite getitemZ_of_nat.
    destruct (getitem xvalues 0) as [x|err]; simpl; [|discriminate].
    destruct (propagate _ _ _ _) as [r|err]; simpl; [|discriminate].
    intros [= <- _ _]. now exists x.
  - rewrite seq_S, map_app. simpl map.
    destruct (lya_init basis xvalues A B) as [st0|err]; simpl;
      [|discriminate].
    rewrite for_each_app.
    destruct (for_each _ _ st0) as [[[J' u'] e']|err]; simpl;
      [|discriminate].
    destruct (propagate _ _ _ _) as [r|err]; simpl; [|discriminate].
    replace (Z.pos (Pos.of_succ_nat n)) with (Z.of_nat (S n)) by lia.
    rewrite getitemZ_of_nat.
    destruct (getitem xvalues (S n)) as [x|err]; simpl; [|discriminate].
    intros [= <- _ _]. now exists x.
Qed.

(** C1, at the input [Lyapunov(2, basis(2), [1.0, 0.0], 1.0, 1.0)]: the
    pass [n = 1] propagates by the Jacobian of [xvalues[0]], so that the
    exponents returned are not those of the iteration that rebuilds the
    Jacobian from [xvalues[1]] before it propagates. *)
Theorem Lyapunov_first_jacobian_twice :
  lya_loop [] (basis 2) [Fin 1; Fin 0] (Fin 1) (Fin 1)
  = Ok (jacobian (Fin 1) (Fin 1) (Fin 1),
        [[Fin (-2 / 5); Fin (1 / 5)]; [Fin 1; Fin 2]],
        [Fin (ln 5); Fin (ln (1 / 5))]) /\
  Lyapunov 2 (basis 2) [Fin 1; Fin 0] (Fin 1) (Fin 1)
  = Ok [Fin ((ln 5 + ln (29 / 25)) / 2);
        Fin ((ln (1 / 5) + ln (25 / 29)) / 2)] /\
  computeSpectrum_spec 2 (basis 2) [Fin 1; Fin 0] (Fin 1) (Fin 1)
  = Ok [Fin ((ln 5 + ln (1 / 5)) / 2); Fin ((ln (1 / 5) + ln 5) / 2)] /\
  Lyapunov 2 (basis 2) [Fin 1; Fin 0] (Fin 1) (Fin 1)
  <> computeSpectrum_spec 2 (basis 2) [Fin 1; Fin 0] (Fin 1) (Fin 1).
Proof.
  split; [|split; [exact Lyapunov_code_example|
                   split; [exact computeSpectrum_spec_example|]]].
  - unfold lya_loop, lya_init.
    change (getitemZ [Fin 1; Fin 0] 0) with (Ok (Fin 1)).
    change (length (basis 2)) with 2%nat.
    change (map (fun _ => of_Z 0) (range 2)) with [Fin 0; Fin 0].
    cbn [bind]. rewrite propagate_first_example. reflexivity.
  - rewrite Lyapunov_code_example, computeSpectrum_spec_example.
    intros [= H].
    assert (Hlt : ln (1 / 5) < ln (29 / 25)) by (apply ln_increasing; lra).
    lra.
Qed.

(** C10, refuted for [N = 1]: the only orbit value is the one of index
    [N - 1], and the exponents depend on it. *)
Lemma Lyapunov_single_step_reads_last :
  length [Fin 0] = length [Fin 1] /\
  (forall i, i <> Z.to_nat (1 - 1) ->
             nth_error [Fin 0] i = nth_error [Fin 1] i) /\
  Lyapunov 1 (basis 2) [Fin 0] (Fin 1) (Fin 1)
  <> Lyapunov 1 (basis 2) [Fin 1] (Fin 1) (Fin 1).
Proof.
  split; [reflexivity|]. split.
  - intros [|i] Hi; [now contradiction Hi | now destruct i].
  - assert (H0 : Lyapunov 1 (basis 2) [Fin 0] (Fin 1) (Fin 1)
                 = Ok [Fin 0; Fin 0]).
    { lya_eval. float_eq; ln_arg 1; rewrite ln_1; lra. }
    assert (H1 : Lyapunov 1 (basis 2) [Fin 1] (Fin 1) (Fin 1)
                 = Ok [Fin (ln 5); Fin (ln (1 / 5))]).
    { lya_eval. float_eq; [ln_arg 5 | ln_arg (1 / 5)]; lra. }
    rewrite H0, H1. intros [= H _].
    assert (Hlt : ln 1 < ln 5) by (apply ln_increasing; lra).
    rewrite ln_1 in Hlt. lra.
Qed.

(** The run with a degenerate cocycle: with [B = 0] the second propagated
    vector is parallel to the first, its orthogonalised form is the zero
    vector, and [Lyapunov] returns the logarithm of that zero norm. *)
Lemma Lyapunov_zero_norm_example :
  Lyapunov 1 (basis 2) [Fin 1] (Fin 1) (Fin 0) = Ok [Fin (ln 4); NInf].
Proof.
  lya_eval. float_eq. ln_arg 4. lra.
Qed.

(* ------------------------------------------------------------------ *)
(** ** ClosedFormEstimators *)

Section ClosedFormFacts.

Context (O : Oracles).

(** The two branches of [lyapunov_point]. *)
Lemma lyapunov_point_branches (xp av bv : float) :
  lyapunov_point O xp av bv
  = [nth 0 (lyapunov_point O xp av bv) NaN;
     nth 1 (lyapunov_point O xp av bv) NaN].
Proof.
  unfold lyapunov_point. destruct (solve_eig_vals O xp av bv). reflexivity.
Qed.

Lemma period_loop (av bv : float) (xpoints : list float)
  (lya1 lya2 : list float) :
  for_each xpoints (period_body O av bv) (lya1, lya2)
  = Ok (lya1 ++ map (fun x => nth 0 (lyapunov_point O x av bv) NaN) xpoints,
        lya2 ++ map (fun x => nth 1 (lyapunov_point O x av bv) NaN) xpoints).
Proof.
  revert lya1 lya2; induction xpoints as [|x xs IH]; intros lya1 lya2; simpl.
  - now rewrite !app_nil_r.
  - rewrite (lyapunov_point_branches x av bv) at 1. simpl.
    rewrite IH, <- !app_assoc. reflexivity.
Qed.

Lemma pymax_pymin_sorted (a b : float) :
  real_or_ninf a -> real_or_ninf b ->
  fle (pymin a b) (pymax a b) = true /\
  ((pymax a b = a /\ pymin a b = b) \/ (pymax a b = b /\ pymin a b = a)).
Proof.
  unfold pymax, pymin, fgt.
  destruct a as [x| | |], b as [y| | |]; simpl; try contradiction;
    intros _ _.
  - destruct (Rlt_dec x y), (Rlt_dec y x); simpl;
      destruct (Rle_dec _ _); try lra; auto.
    split; auto. left. split; auto. f_equal. lra.
  - auto.
  - auto.
  - auto.
Qed.

Lemma real_or_ninf_flog (r : R) : 0 <= r -> real_or_ninf (flog (Fin r)).
Proof.
  intros H. simpl. destruct (Rlt_dec 0 r); simpl; auto.
  destruct (Rlt_dec r 0); simpl; auto. lra.
Qed.

Lemma real_or_ninf_pymax (a b : float) :
  real_or_ninf a -> real_or_ninf b -> real_or_ninf (pymax a b).
Proof. unfold pymax. destruct (fgt b a); auto. Qed.

Lemma real_or_ninf_pymin (a b : float) :
  real_or_ninf a -> real_or_ninf b -> real_or_ninf (pymin a b).
Proof. unfold pymin. destruct (flt b a); auto. Qed.

Lemma real_or_ninf_fadd (a b : float) :
  real_or_ninf a -> real_or_ninf b -> real_or_ninf (fadd a b).
Proof. destruct a, b; simpl; auto. Qed.

Lemma real_or_ninf_sum (l : list float) (a : float) :
  real_or_ninf a -> Forall real_or_ninf l ->
  real_or_ninf (fold_left fadd l a).
Proof.
  revert a; induction l as [|x l IH]; intros a Ha Hl; simpl; auto.
  inversion Hl; subst. apply IH; auto. now apply real_or_ninf_fadd.
Qed.

Lemma real_or_ninf_mean (l : list float) :
  l <> [] -> Forall real_or_ninf l -> real_or_ninf (np_mean l).
Proof.
  intros Hne Hl. unfold np_mean, pysum, of_Z.
  assert (Hn : 0 < IZR (Z.of_nat (length l))).
  { apply IZR_lt. destruct l; [contradiction | simpl; lia]. }
  pose proof (real_or_ninf_sum l (Fin 0) I Hl) as Hs.
  destruct (fold_left fadd l (Fin 0)); simpl in *; try contradiction.
  - destruct (Req_dec_T _ 0); [lra | exact I].
  - destruct (Rlt_dec _ 0); [lra | exact I].
Qed.

Lemma lyapunov_point_real_or_ninf (xp av bv : float) :
  finite_moduli_at O av bv xp ->
  real_or_ninf (nth 0 (lyapunov_point O xp av bv) NaN) /\
  real_or_ninf (nth 1 (lyapunov_point O xp av bv) NaN).
Proof.
  intros (r1 & r2 & H1 & H2 & E1 & E2).
  unfold lyapunov_point. destruct (solve_eig_vals O xp av bv) as [s1 s2].
  simpl in *. rewrite E1, E2. split.
  - apply real_or_ninf_pymax; now apply real_or_ninf_flog.
  - apply real_or_ninf_pymin; now apply real_or_ninf_flog.
Qed.

(** The sum from 0 divided by a positive count keeps a list of reals and
    minus infinities in that class. *)
Lemma real_or_ninf_sum_over_count (l : list float) (n : nat) :
  (0 < n)%nat -> Forall real_or_ninf l ->
  real_or_ninf (fdiv (fold_left fadd l (Fin 0)) (of_Z (Z.of_nat n))).
Proof.
  intros Hn Hl. unfold of_Z.
  assert (Hpos : 0 < IZR (Z.of_nat n)) by (apply IZR_lt; lia).
  pose proof (real_or_ninf_sum l (Fin 0) I Hl) as Hs.
  destruct (fold_left fadd l (Fin 0)); simpl in *; try contradiction.
  - destruct (Req_dec_T _ 0); [lra | exact I].
  - destruct (Rlt_dec _ 0); [lra | exact I].
Qed.

(** C6: on a non-empty cycle whose eigenvalue moduli are finite,
    [lyapunov_period] takes the first (max) entry and the second (min)
    entry of [lyapunov_point] at every point of the cycle, forms for each
    branch the arithmetic mean, the sum of the entries from 0 divided by
    the number of points, and returns the two means with the larger first
    and the other second. *)
Theorem lyapunov_period_sorted_means (xpoints : list float)
  (av bv : float) :
  finite_moduli_on O xpoints av bv -> xpoints <> [] ->
  let maxes := map (fun x => nth 0 (lyapunov_point O x av bv) NaN) xpoints in
  let mins := map (fun x => nth 1 (lyapunov_point O x av bv) NaN) xpoints in
  let count := of_Z (Z.of_nat (length xpoints)) in
  let m1 := fdiv (fold_left fadd maxes (Fin 0)) count in
  let m2 := fdiv (fold_left fadd mins (Fin 0)) count in
  exists hi lo,
    lyapunov_period O xpoints av bv = Ok [hi; lo] /\
    hi = pymax m1 m2 /\ lo = pymin m1 m2 /\
    ((hi = m1 /\ lo = m2) \/ (hi = m2 /\ lo = m1)) /\
    fle lo hi = true.
Proof.
  intros HO Hne maxes mins count m1 m2.
  exists (pymax m1 m2), (pymin m1 m2).
  assert (Hlen : (0 < length xpoints)%nat).
  { destruct xpoints; [contradiction | simpl; lia]. }
  assert (Hm : real_or_ninf m1 /\ real_or_ninf m2).
  { split; apply real_or_ninf_sum_over_count; try exact Hlen;
      apply Forall_forall; intros y Hy; apply in_map_iff in Hy;
      destruct Hy as [x [<- Hx]];
      apply (lyapunov_point_real_or_ninf x av bv (HO x Hx)). }
  destruct Hm as [Hm1 Hm2].
  destruct (pymax_pymin_sorted m1 m2 Hm1 Hm2) as [Hle Hperm].
  repeat split; auto.
  unfold lyapunov_period. rewrite period_loop. cbn [bind app].
  unfold np_mean, pysum. rewrite !length_map. reflexivity.
Qed.

End ClosedFormFacts.

Lemma lyapunov_period_sorted_means_witness :
  let O := sample_oracles None None None None in
  let maxes := map (fun x => nth 0 (lyapunov_point O x (Fin 1) (Fin 1)) NaN)
                   [Fin 0; Fin 1] in
  let mins := map (fun x => nth 1 (lyapunov_point O x (Fin 1) (Fin 1)) NaN)
                  [Fin 0; Fin 1] in
  let m1 := fdiv (fold_left fadd maxes (Fin 0)) (of_Z 2) in
  let m2 := fdiv (fold_left fadd mins (Fin 0)) (of_Z 2) in
  exists hi lo,
    lyapunov_period O [Fin 0; Fin 1] (Fin 1) (Fin 1) = Ok [hi; lo] /\
    hi = pymax m1 m2 /\ lo = pymin m1 m2 /\
    ((hi = m1 /\ lo = m2) \/ (hi = m2 /\ lo = m1)) /\
    fle lo hi = true.
Proof.
  apply (lyapunov_period_sorted_means (sample_oracles None None None None)
           [Fin 0; Fin 1] (Fin 1) (Fin 1)).
  - intros x _. exists 2, (1 / 2). simpl.
    repeat split; try reflexivity; lra.
  - discriminate.
Defined.

(* ------------------------------------------------------------------ *)
(** ** SpectrumDispatcher *)

Section DispatcherFacts.

Context (O : Oracles).
Context (Ninit cutoff : Z) (start : list float) (div : bool).

(** C8: for arguments outside the four supported combinations,
    [calc_lya_henon] raises [ValueError] and has made no call: no orbit is
    generated and no exponent is computed. *)
Theorem calc_lya_henon_rejects (A B : pyarg) :
  supported_combination A B = false ->
  calc_lya_henon O Ninit cutoff start div A B = ([], Raise ValueError).
Proof.
  unfold supported_combination, is_scalar, calc_lya_henon.
  destruct A, B; simpl; intros H; try discriminate H; reflexivity.
Qed.


(** In the scalar case, a diverging orbit is handed to both detectors
    before it is tested. *)
Lemma scalar_case_diverged (A B : float) (x0 y0 : float)
  (rest : list float) (yvalues : option (list float)) :
  start = x0 :: y0 :: rest ->
  Henon O x0 y0 Ninit A B div = (None, yvalues) ->
  exists t r,
    scalar_case O Ninit cutoff start div A B
    = (CallHenon x0 y0 Ninit A B div
         :: CallDeterminePoint None yvalues :: t, r).
Proof.
  intros -> H. unfold scalar_case. simpl. rewrite H.
  destruct (determine_point O None yvalues) as [p|e]; simpl; [|eauto].
  destruct (determine_period O None yvalues) as [c|e]; simpl; eauto.
Qed.

(** The generic path of a cell never records [None]: the entries of the
    list that [Lyapunov] returns are floats. *)
Lemma cell_generic_records_floats (basisVects : option (list vec))
  (xvalues : list float) (a b : float) (t : list call)
  (e : option float * option float) :
  cell_generic Ninit cutoff basisVects xvalues a b = (t, Ok e) ->
  exists exp1 exp2, e = (Some exp1, Some exp2).
Proof.
  unfold cell_generic. destruct basisVects as [bv|]; simpl; [|discriminate].
  destruct (Lyapunov _ bv _ a b) as [lya|err]; simpl; [|discriminate].
  destruct lya as [|l0 lya]; simpl; [discriminate|].
  intros [= _ <-]. eauto.
Qed.

(** A sweep that returns has appended one entry per value to each of its
    two lists. *)
Lemma sweep_row_length
  (cell : float -> traced (option float * option float))
  (values : list float) (t : list call)
  (l1 l2 : list (option float)) :
  sweep_row cell values = (t, Ok (l1, l2)) ->
  length l1 = length values /\ length l2 = length values.
Proof.
  unfold sweep_row.
  assert (G : forall vs a1 a2 t' r1 r2,
    tfor_each vs
      (fun v st => e <~ cell v ;; tret (fst st ++ [fst e], snd st ++ [snd e]))
      (a1, a2) = (t', Ok (r1, r2)) ->
    length r1 = (length a1 + length vs)%nat /\
    length r2 = (length a2 + length vs)%nat).
  { induction vs as [|v vs IH]; intros a1 a2 t' r1 r2; simpl.
    - intros [= _ <- <-]. lia.
    - destruct (cell v) as [tc [e|err]]; simpl; [|discriminate].
      destruct (tfor_each vs _ _) as [t2 [[q1 q2]|err]] eqn:E; simpl;
        [|discriminate].
      intros [= _ <- <-]. apply IH in E. rewrite !length_app in E.
      simpl in E. lia. }
  intros H. apply G in H. simpl in H. exact H.
Qed.

(** In a sweep over one array, a cell whose orbit neither diverges nor
    shows a fixed point or a cycle reads [basisVects], which these two
    branches never assign. *)
Lemma sweep_cell_unbound (a b : float) (x0 y0 : float) (rest : list float)
  (xs : list float) (yvalues : option (list float)) :
  start = x0 :: y0 :: rest ->
  Henon O x0 y0 Ninit a b div = (Some xs, yvalues) ->
  determine_point O (Some xs) yvalues = Ok None ->
  determine_period O (Some xs) yvalues = Ok None ->
  sweep_cell O Ninit cutoff start div None a b
  = ([CallHenon x0 y0 Ninit a b div;
      CallDeterminePoint (Some xs) yvalues;
      CallDeterminePeriod (Some xs) yvalues],
     Raise UnboundLocalError).
Proof.
  intros -> H Hp Hc. unfold sweep_cell. simpl. rewrite H. simpl.
  rewrite Hp, Hc. reflexivity.
Qed.

(** C3, in the scalar case: when [Henon] reports a diverging orbit,
    [calc_lya_henon] still calls [determine_point] on it, and
    [determine_period] after it; if both return, the result is the single
    value [None]. *)
Theorem calc_lya_henon_scalar_diverged (A B : pyarg) (x0 y0 : float)
  (rest : list float) (yvalues : option (list float)) :
  is_scalar A = true -> is_scalar B = true ->
  start = x0 :: y0 :: rest ->
  Henon O x0 y0 Ninit (scalar_value A) (scalar_value B) div
  = (None, yvalues) ->
  exists t r,
    calc_lya_henon O Ninit cutoff start div A B
    = (CallHenon x0 y0 Ninit (scalar_value A) (scalar_value B) div
         :: CallDeterminePoint None yvalues :: t, r) /\
    (forall p c,
       determine_point O None yvalues = Ok p ->
       determine_period O None yvalues = Ok c ->
       t = [CallDeterminePeriod None yvalues] /\ r = Ok RetNone).
Proof.
  intros HA HB -> H.
  assert (E : calc_lya_henon O Ninit cutoff (x0 :: y0 :: rest) div A B
              = scalar_case O Ninit cutoff (x0 :: y0 :: rest) div
                  (scalar_value A) (scalar_value B)).
  { unfold calc_lya_henon, is_scalar in *.
    destruct A, B; simpl in *; try discriminate; reflexivity. }
  rewrite E. unfold scalar_case. simpl. rewrite H.
  destruct (determine_point O None yvalues) as [p|e]; simpl.
  - destruct (determine_period O None yvalues) as [c|e]; simpl.
    + do 2 eexists. split; [reflexivity|]. intros; auto.
    + do 2 eexists. split; [reflexivity|]. intros; discriminate.
  - do 2 eexists. split; [reflexivity|]. intros; discriminate.
Qed.

(** When a sweep over one array returns, it returns two sequences with one
    entry per element of the array. *)
Lemma calc_lya_henon_one_array_lengths (A B : pyarg) (t : list call)
  (r : retval) :
  (is_ndarray A && is_scalar B) || (is_scalar A && is_ndarray B) = true ->
  calc_lya_henon O Ninit cutoff start div A B = (t, Ok r) ->
  exists all_exp1 all_exp2,
    r = RetSeq all_exp1 all_exp2 /\
    length all_exp1 = length (array_values A ++ array_values B) /\
    length all_exp2 = length (array_values A ++ array_values B).
Proof.
  unfold calc_lya_henon, is_scalar.
  destruct A as [x|z|xs|], B as [y|w|ys|]; simpl; try discriminate;
    intros _;
    match goal with
    | |- context [sweep_row ?c ?v] =>
        destruct (sweep_row c v) as [t' [[l1 l2]|err]] eqn:E; simpl;
        [|discriminate];
        intros [= _ <-]; apply sweep_row_length in E;
        exists l1, l2; rewrite ?app_nil_r; simpl; tauto
    end.
Qed.

End DispatcherFacts.

Lemma calc_lya_henon_rejects_witness :
  calc_lya_henon (sample_oracles None None None None) 10000 1000
    [Fin 0; Fin 0] true PyOther (PyFloat (Fin (3 / 10)))
  = ([], Raise ValueError).
Proof.
  apply (calc_lya_henon_rejects (sample_oracles None None None None)).
  reflexivity.
Defined.

Lemma calc_lya_henon_scalar_diverged_witness :
  exists t r,
    calc_lya_henon (sample_oracles None None None None) 10000 1000
      [Fin 0; Fin 0] true (PyFloat (Fin 2)) (PyFloat (Fin (3 / 10)))
    = (CallHenon (Fin 0) (Fin 0) 10000 (Fin 2) (Fin (3 / 10)) true
         :: CallDeterminePoint None None :: t, r) /\
    t = [CallDeterminePeriod None None] /\ r = Ok RetNone.
Proof.
  destruct (calc_lya_henon_scalar_diverged
              (sample_oracles None None None None) 10000 1000
              [Fin 0; Fin 0] true (PyFloat (Fin 2)) (PyFloat (Fin (3 / 10)))
              (Fin 0) (Fin 0) [] None)
    as (t & r & H & Hret); try reflexivity.
  exists t, r. split; [exact H|].
  apply (Hret None None); reflexivity.
Defined.

(** C7, at the input
    [calc_lya_henon(2, 1, (0, 0), np.array([1.0]), np.array([0.0]))] with
    the orbit [x = [0, 1]]: the second orthogonalised vector has norm zero,
    [Lyapunov] returns the logarithm [-inf] of that norm, and the cell
    records the two numbers [ln 4] and [-inf], not [(None, None)]. *)
Theorem calc_lya_henon_zero_norm_cell :
  Lyapunov 1 (basis 2) [Fin 1] (Fin 1) (Fin 0) = Ok [Fin (ln 4); NInf] /\
  calc_lya_henon
    (sample_oracles (Some [Fin 0; Fin 1]) (Some [Fin 0; Fin 0]) None None)
    2 1 [Fin 0; Fin 0] true (NdArray [Fin 1]) (NdArray [Fin 0])
  = ([CallHenon (Fin 0) (Fin 0) 2 (Fin 1) (Fin 0) true;
      CallDeterminePoint (Some [Fin 0; Fin 1]) (Some [Fin 0; Fin 0]);
      CallDeterminePeriod (Some [Fin 0; Fin 1]) (Some [Fin 0; Fin 0]);
      CallLyapunov 1 (basis 2) [Fin 1] (Fin 1) (Fin 0)],
     Ok (RetGrid [[Some (Fin (ln 4))]] [[Some NInf]])).
Proof.
  split; [exact Lyapunov_zero_norm_example|].
  unfold calc_lya_henon, sweep_row, sweep_cell, cell_generic.
  cbn -[Lyapunov basis pymax_list pymin_list].
  change (skipn (Pos.to_nat 1) [Fin 0; Fin 1]) with [Fin 1].
  rewrite Lyapunov_zero_norm_example.
  cbn. real_cases. reflexivity.
Qed.

(** C9, at the inputs
    [calc_lya_henon(2, 1, (0, 0), np.array([1.4]), 0.3)] and
    [calc_lya_henon(2, 1, (0, 0), 1.4, np.array([0.3]))] with an orbit
    that neither diverges nor shows a fixed point or a cycle: the call
    raises [UnboundLocalError] and returns no sequence. *)
Theorem calc_lya_henon_one_array_unbound :
  let O := sample_oracles (Some [Fin 0; Fin 1]) (Some [Fin 0; Fin 0])
             None None in
  let calls a b :=
    [CallHenon (Fin 0) (Fin 0) 2 a b true;
     CallDeterminePoint (Some [Fin 0; Fin 1]) (Some [Fin 0; Fin 0]);
     CallDeterminePeriod (Some [Fin 0; Fin 1]) (Some [Fin 0; Fin 0])] in
  calc_lya_henon O 2 1 [Fin 0; Fin 0] true
    (NdArray [Fin (7 / 5)]) (PyFloat (Fin (3 / 10)))
  = (calls (Fin (7 / 5)) (Fin (3 / 10)), Raise UnboundLocalError) /\
  calc_lya_henon O 2 1 [Fin 0; Fin 0] true
    (PyFloat (Fin (7 / 5))) (NdArray [Fin (3 / 10)])
  = (calls (Fin (7 / 5)) (Fin (3 / 10)), Raise UnboundLocalError).
Proof.
  split; reflexivity.
Qed.

(* ------------------------------------------------------------------ *)
(** ** The examples of the specification *)

Example Gram_Schmidt_single (v : vec) : Gram_Schmidt [v] = Ok [v].
Proof. reflexivity. Qed.

Example Gram_Schmidt_basis_2 : Gram_Schmidt (basis 2) = Ok (basis 2).
Proof.
  lya_eval. change (basis 2) with [[Fin 1; Fin 0]; [Fin 0; Fin 1]].
  float_eq; real_eq.
Qed.

Example det_att_examples :
  det_att None None (Fin (1 / 10)) = Ok 5%Z /\
  det_att (Some (Fin (-1))) (Some (Fin (-1))) (Fin (1 / 10)) = Ok 1%Z /\
  det_att (Some (Fin (-1))) (Some (Fin (-2))) (Fin (1 / 10)) = Ok 0%Z /\
  det_att (Some (Fin 0)) (Some (Fin (-5))) (Fin (1 / 10)) = Ok 2%Z /\
  det_att (Some (Fin (1 / 2))) (Some (Fin (- (1 / 2)))) (Fin (1 / 10))
  = Ok 3%Z /\
  det_att (Some (Fin (1 / 2))) (Some (Fin (3 / 10))) (Fin (1 / 10))
  = Ok 4%Z.
Proof.
  repeat split; unfold det_att, fgt, of_Z; simpl; real_cases; reflexivity.
Qed.

(* ================================================================== *)
(** * Further properties of the code *)

(* ------------------------------------------------------------------ *)
(** ** Arithmetic of vectors of reals *)

Lemma fmul_comm (a b : float) : fmul a b = fmul b a.
Proof.
  destruct a as [x| | |], b as [y| | |]; simpl; try reflexivity.
  f_equal. apply Rmult_comm.
Qed.

Lemma zip_with_comm {A B : Type} (f : A -> A -> B) (u v : list A) :
  (forall a b, f a b = f b a) -> zip_with f u v = zip_with f v u.
Proof.
  intros Hf. revert v; induction u as [|x u IH]; intros [|y v]; simpl;
    try reflexivity.
  now rewrite Hf, IH.
Qed.

Lemma zip_with_length {A B C : Type} (f : A -> B -> C) (u : list A)
  (v : list B) :
  length u = length v -> length (zip_with f u v) = length u.
Proof.
  revert v; induction u as [|x u IH]; intros [|y v]; simpl;
    try discriminate; try reflexivity.
  intros [= H]. now rewrite IH.
Qed.

Lemma zip_with_Fin (f : float -> float -> float) (g : R -> R -> R)
  (u v : list R) :
  (forall x y, f (Fin x) (Fin y) = Fin (g x y)) ->
  zip_with f (map Fin u) (map Fin v) = map Fin (zip_with g u v).
Proof.
  intros H. revert v; induction u as [|x u IH]; intros [|y v]; simpl;
    try reflexivity.
  now rewrite H, IH.
Qed.

Lemma pysum_Fin (l : list R) (a : R) :
  fold_left fadd (map Fin l) (Fin a) = Fin (fold_left Rplus l a).
Proof.
  revert a; induction l as [|x l IH]; intros a; simpl;
    [reflexivity | apply IH].
Qed.

Lemma fold_left_Rplus_acc (l : list R) (a : R) :
  fold_left Rplus l a = a + fold_left Rplus l 0.
Proof.
  revert a; induction l as [|x l IH]; intros a; simpl; [lra|].
  rewrite (IH (a + x)), (IH (0 + x)). lra.
Qed.

Lemma dotR_cons (x y : R) (u v : list R) :
  dotR (x :: u) (y :: v) = x * y + dotR u v.
Proof.
  unfold dotR. simpl. rewrite fold_left_Rplus_acc. lra.
Qed.

Lemma dotR_comm (u v : list R) : dotR u v = dotR v u.
Proof.
  unfold dotR. f_equal. apply zip_with_comm. intros; apply Rmult_comm.
Qed.

Lemma dotR_self_ge (v : list R) : 0 <= dotR v v.
Proof.
  induction v as [|x v IH]; [unfold dotR; simpl; lra|].
  rewrite dotR_cons. nra.
Qed.

Lemma dotR_self_zero (v : list R) :
  dotR v v = 0 <-> Forall (fun x => x = 0) v.
Proof.
  induction v as [|x v IH].
  - split; [constructor | reflexivity].
  - rewrite dotR_cons. pose proof (dotR_self_ge v) as Hge. split.
    + intros H. constructor; [nra|]. apply IH. nra.
    + intros H. inversion H; subst. apply IH in H3. rewrite H3. lra.
Qed.

Lemma nonzero_dotR_pos (v : list R) : nonzero v -> 0 < dotR v v.
Proof.
  intros [x [Hin Hx]]. pose proof (dotR_self_ge v) as Hge.
  destruct (Req_dec_T (dotR v v) 0) as [E|NE]; [|lra].
  apply dotR_self_zero in E. rewrite Forall_forall in E.
  now specialize (E x Hin).
Qed.

Lemma norm_vect_reals (v : list R) :
  norm_vect (map Fin v) = Fin (dotR v v).
Proof.
  unfold norm_vect, pysum, dotR.
  rewrite <- zip_with_diag, (zip_with_Fin fmul Rmult) by reflexivity.
  apply pysum_Fin.
Qed.

(** The projection and the residual, on vectors of reals. *)
Lemma proj_vect_reals (u v : list R) :
  length u = length v -> nonzero u ->
  proj_vect (map Fin u) (map Fin v)
  = Ok (map Fin (map (fun x => dotR u v / dotR u u * x) u)).
Proof.
  intros Hlen Hnz.
  rewrite proj_vect_same_length.
  - rewrite (zip_with_Fin fmul Rmult) by reflexivity.
    fold (pysum (map Fin (zip_with Rmult u v))). unfold pysum.
    rewrite pysum_Fin. fold (dotR u v). rewrite norm_vect_reals.
    pose proof (nonzero_dotR_pos u Hnz) as Hpos. simpl.
    destruct (Req_dec_T (dotR u u) 0) as [E|_]; [lra|].
    unfold vscale. rewrite !map_map. reflexivity.
  - now rewrite !length_map.
  - destruct Hnz as [x [Hin _]]. destruct u; [destruct Hin | discriminate].
Qed.

Lemma residual_reals (u v : list R) (c : R) :
  length u = length v ->
  vsub (map Fin v) (map Fin (map (fun x => c * x) u))
  = Ok (map Fin (zip_with (fun y x => y + - (c * x)) v u)).
Proof.
  intros Hlen. rewrite vsub_same_length by (now rewrite !length_map).
  f_equal. clear Hlen. revert u; induction v as [|y v IH]; intros [|x u];
    simpl; try reflexivity.
  now rewrite IH.
Qed.

(* ------------------------------------------------------------------ *)
(** ** VectorOps: lengths, symmetry, the projection on a zero vector *)

Lemma inner_terms_enough (vect1 vect2 : vec) :
  (length vect1 <= length vect2)%nat ->
  exists t, inner_terms vect1 vect2 = Ok t.
Proof.
  revert vect2; induction vect1 as [|x v1 IH]; intros [|y v2]; simpl;
    intros H; try lia; eauto.
  destruct (IH v2) as [t ->]; [lia|]. simpl. eauto.
Qed.

Lemma inner_terms_short (vect1 vect2 : vec) :
  (length vect2 < length vect1)%nat ->
  inner_terms vect1 vect2 = Raise IndexError.
Proof.
  revert vect2; induction vect1 as [|x v1 IH]; intros [|y v2]; simpl;
    intros H; try lia; auto.
  rewrite IH by lia. reflexivity.
Qed.

(** [inner_vect] raises [IndexError] exactly when its second vector is
    the shorter one, and returns in every other case. *)
Theorem inner_vect_IndexError_iff (vect1 vect2 : vec) :
  (inner_vect vect1 vect2 = Raise IndexError
   <-> (length vect2 < length vect1)%nat) /\
  ((exists s, inner_vect vect1 vect2 = Ok s)
   <-> (length vect1 <= length vect2)%nat).
Proof.
  unfold inner_vect.
  destruct (Nat.lt_ge_cases (length vect2) (length vect1)) as [Hlt|Hge].
  - rewrite (inner_terms_short vect1 vect2 Hlt). simpl. split.
    + split; [intros _; exact Hlt | reflexivity].
    + split; [intros [s Hs]; discriminate | lia].
  - destruct (inner_terms_enough vect1 vect2 Hge) as [t Ht].
    rewrite Ht. simpl. split.
    + split; [discriminate | lia].
    + split; [intros _; exact Hge | eauto].
Qed.

(** The components of the second vector beyond the length of the first
    are ignored. *)
Theorem inner_vect_ignores_extra (vect1 vect2 extra : vec) :
  length vect1 = length vect2 ->
  inner_vect vect1 (vect2 ++ extra) = inner_vect vect1 vect2.
Proof.
  unfold inner_vect. intros H.
  assert (E : inner_terms vect1 (vect2 ++ extra) = inner_terms vect1 vect2).
  { revert vect2 H; induction vect1 as [|x v1 IH]; intros [|y v2]; simpl;
      try discriminate; try reflexivity.
    intros [= H]. now rewrite IH. }
  now rewrite E.
Qed.

Lemma inner_vect_ignores_extra_witness :
  inner_vect [Fin 1; Fin 2] ([Fin 3; Fin 4] ++ [Fin 5])
  = inner_vect [Fin 1; Fin 2] [Fin 3; Fin 4].
Proof. apply inner_vect_ignores_extra. reflexivity. Defined.

(** On vectors of one length [inner_vect] is symmetric, also when
    components are infinite or [nan]. *)
Theorem inner_vect_symmetric (vect1 vect2 : vec) :
  length vect1 = length vect2 ->
  inner_vect vect1 vect2 = inner_vect vect2 vect1.
Proof.
  intros H. unfold inner_vect.
  rewrite !inner_terms_same_length by congruence.
  now rewrite (zip_with_comm fmul vect1 vect2 fmul_comm).
Qed.

Lemma inner_vect_symmetric_witness :
  inner_vect [Fin 1; NaN] [PInf; Fin 4] = inner_vect [PInf; Fin 4] [Fin 1; NaN].
Proof. apply inner_vect_symmetric. reflexivity. Defined.

Lemma dotR_zero_l (u v : list R) :
  Forall (fun x => x = 0) u -> dotR u v = 0.
Proof.
  intros H. revert v; induction H as [|x u Hx Hu IH]; intros [|y v];
    try reflexivity.
  rewrite dotR_cons, IH, Hx. lra.
Qed.

(** On a zero vector that is not empty [proj_vect] does not raise: the
    quotient is 0/0 and every component of the result is [nan]. *)
Theorem proj_vect_zero_vector (u v : list R) :
  length u = length v -> u <> [] -> Forall (fun x => x = 0) u ->
  proj_vect (map Fin u) (map Fin v) = Ok (map (fun _ => NaN) u).
Proof.
  intros Hlen Hne Hz.
  rewrite proj_vect_same_length.
  - rewrite (zip_with_Fin fmul Rmult) by reflexivity.
    fold (pysum (map Fin (zip_with Rmult u v))). unfold pysum.
    rewrite pysum_Fin. fold (dotR u v). rewrite norm_vect_reals.
    rewrite (dotR_zero_l u v Hz), (dotR_zero_l u u Hz). simpl.
    destruct (Req_dec_T 0 0) as [_|NE]; [|lra].
    unfold inf_times. destruct (Rlt_dec 0 0); [lra|].
    unfold vscale. rewrite map_map. reflexivity.
  - now rewrite !length_map.
  - destruct u; [contradiction | discriminate].
Qed.

Lemma proj_vect_zero_vector_witness :
  proj_vect (map Fin [0; 0]) (map Fin [3; 4]) = Ok (map (fun _ => NaN) [0; 0]).
Proof.
  apply proj_vect_zero_vector.
  - reflexivity.
  - discriminate.
  - repeat constructor.
Defined.

(* ------------------------------------------------------------------ *)
(** ** Orthogonalizer: shape, the standard basis *)

(** The vectors that the outer loop appends. *)
Lemma gs_outer_appends (vectors : list vec) (ks : list nat)
  (b b' : list vec) (s s' : option vec) :
  for_each ks (gs_outer vectors) (b, s) = Ok (b', s') ->
  exists outs, b' = b ++ outs /\ length outs = length ks.
Proof.
  revert b s; induction ks as [|k ks IH]; intros b s; simpl.
  - intros [= <- _]. exists []. now rewrite app_nil_r.
  - unfold gs_outer at 1. simpl.
    destruct (gs_inner vectors k s) as [[nv|]|e]; simpl; try discriminate.
    intros H. apply IH in H. destruct H as [outs [-> Hlen]].
    exists (nv :: outs). rewrite <- app_assoc. simpl. auto.
Qed.

(** Whenever [Gram_Schmidt] returns, the input was not empty, and the
    result has the length of the input and the same first vector; this
    needs no assumption on the lengths of the vectors. *)
Theorem Gram_Schmidt_shape (vectors out : list vec) :
  Gram_Schmidt vectors = Ok out ->
  vectors <> [] /\ length out = length vectors /\
  nth_error out 0 = nth_error vectors 0.
Proof.
  unfold Gram_Schmidt. destruct vectors as [|v0 rest]; [discriminate|].
  change (getitem (v0 :: rest) 0) with (Ok v0 : result vec). cbn [bind].
  destruct (for_each (seq 1 (length (v0 :: rest) - 1))
              (gs_outer (v0 :: rest)) ([v0], None))
    as [[b s]|e] eqn:E; simpl; [|discriminate].
  intros [= <-]. apply gs_outer_appends in E.
  destruct E as [outs [-> Hlen]]. rewrite length_seq in Hlen.
  repeat split; [discriminate | simpl in *; lia].
Qed.

(** Vectors of lengths 1, 2 and 2: the loop runs twice, the second vector
    loses the broadcast projection [[3]] and the third its projection
    [[3, 4]] on the second input vector. *)
Lemma Gram_Schmidt_shape_witness :
  let vectors := [[Fin 2]; [Fin 3; Fin 4]; [Fin 7; Fin 1]] in
  let out := [[Fin 2]; [Fin 0; Fin 1]; [Fin 4; Fin (-3)]] in
  Gram_Schmidt vectors = Ok out /\
  vectors <> [] /\ length out = length vectors /\
  nth_error out 0 = nth_error vectors 0.
Proof.
  intros vectors out.
  assert (H : Gram_Schmidt vectors = Ok out).
  { unfold vectors, out, Gram_Schmidt, gs_outer, gs_inner, gs_term,
      proj_vect, inner_vect, norm_vect, pysum, vscale; simpl.
    repeat (progress (real_cases; simpl)). float_eq; real_eq. }
  split; [exact H | exact (Gram_Schmidt_shape vectors out H)].
Defined.

(** On vectors of one positive dimension [Gram_Schmidt] returns the first
    vector followed by one residual per further index. *)
Lemma Gram_Schmidt_terms (d : nat) (v0 : vec) (rest : list vec) :
  (0 < d)%nat -> Forall (fun x => length x = d) (v0 :: rest) ->
  exists outs,
    map_result (fun k => gs_term (v0 :: rest) k (k - 1))
               (seq 1 (length rest)) = Ok outs /\
    Gram_Schmidt (v0 :: rest) = Ok (v0 :: outs).
Proof.
  intros Hd Hall. set (vectors := v0 :: rest) in *.
  set (g := fun k => gs_term vectors k (k - 1)).
  destruct (map_result_total g (seq 1 (length rest))) as [outs Houts].
  { intros k Hk. apply in_seq in Hk.
    destruct (getitem_in_range vectors k) as [vk [_ Hvk]];
      [subst vectors; simpl; lia|].
    destruct (getitem_in_range vectors (k - 1)) as [vp [_ Hvp]];
      [subst vectors; simpl; lia|].
    unfold g. rewrite (gs_term_same_length d vectors k (k - 1) vk vp);
      eauto. }
  exists outs. split; [exact Houts|].
  destruct (for_each_map_result g (gs_outer vectors)
              (seq 1 (length rest)) outs) with (b := [v0])
    (s := @None vec) as [s' Hloop]; auto.
  { intros k b s o Hk Ho. apply in_seq in Hk.
    unfold gs_outer. simpl fst; simpl snd.
    rewrite (gs_inner_last d vectors k s Hd Hall)
      by (subst vectors; simpl; lia).
    fold (g k). rewrite Ho. simpl. eauto. }
  unfold Gram_Schmidt.
  change (getitem vectors 0) with (Ok v0 : result vec). cbn [bind].
  replace (length vectors - 1)%nat with (length rest)
    by (subst vectors; simpl; lia).
  rewrite Hloop. reflexivity.
Qed.

Lemma gs_term_reals (d : nat) (rvs : list (list R)) (k j : nat)
  (rk rj : list R) :
  (0 < d)%nat -> Forall (fun x => length x = d) rvs ->
  nth_error rvs k = Some rk -> nth_error rvs j = Some rj -> nonzero rj ->
  gs_term (map (map Fin) rvs) k j
  = Ok (map Fin (zip_with (fun y x => y + - (dotR rj rk / dotR rj rj * x))
                          rk rj)).
Proof.
  intros Hd Hall Hk Hj Hnz. unfold gs_term.
  rewrite Forall_forall in Hall.
  pose proof (Hall _ (nth_error_In _ _ Hk)) as Lk.
  pose proof (Hall _ (nth_error_In _ _ Hj)) as Lj.
  assert (Gk : @getitem vec (map (map Fin) rvs) k = Ok (map Fin rk))
    by (apply getitem_Ok; now apply map_nth_error).
  assert (Gj : @getitem vec (map (map Fin) rvs) j = Ok (map Fin rj))
    by (apply getitem_Ok; now apply map_nth_error).
  rewrite Gk, Gj. cbn [bind].
  rewrite proj_vect_reals by congruence. cbn [bind].
  apply residual_reals. congruence.
Qed.

(** The vector of index [i] of the standard basis, over the reals. *)
Lemma basis_reals (dim : nat) :
  basis dim
  = map (fun i => map Fin (map (fun j => if Nat.eqb i j then 1 else 0)
                               (range dim)))
        (range dim).
Proof.
  unfold basis. apply map_ext. intros i. rewrite map_map.
  apply map_ext. intros j. now destruct (Nat.eqb i j).
Qed.

Lemma dotR_pointwise {A : Type} (f g : A -> R) (l : list A) :
  dotR (map f l) (map g l)
  = fold_left Rplus (map (fun x => f x * g x) l) 0.
Proof.
  unfold dotR. f_equal. induction l as [|a l IH]; simpl;
    [reflexivity | now rewrite IH].
Qed.

Lemma fold_left_Rplus_zero (l : list R) :
  Forall (fun x => x = 0) l -> fold_left Rplus l 0 = 0.
Proof.
  induction 1 as [|x l Hx Hl IH]; simpl; [reflexivity|].
  rewrite fold_left_Rplus_acc, IH, Hx. lra.
Qed.

(** Two different vectors of the standard basis have inner product 0. *)
Lemma unit_vectors_orthogonal (i j : nat) (l : list nat) :
  i <> j ->
  dotR (map (fun m => if Nat.eqb i m then 1 else 0) l)
       (map (fun m => if Nat.eqb j m then 1 else 0) l) = 0.
Proof.
  intros Hij. rewrite dotR_pointwise. apply fold_left_Rplus_zero.
  apply Forall_forall. intros x Hx. apply in_map_iff in Hx.
  destruct Hx as [m [<- _]].
  destruct (Nat.eqb_spec i m), (Nat.eqb_spec j m); subst; try lra.
  contradiction.
Qed.

Lemma unit_vector_nonzero (i dim : nat) :
  (i < dim)%nat ->
  nonzero (map (fun m => if Nat.eqb i m then 1 else 0) (range dim)).
Proof.
  intros H. exists 1. split; [|lra].
  apply in_map_iff. exists i. rewrite Nat.eqb_refl. split; [reflexivity|].
  apply in_seq. lia.
Qed.

Lemma map_result_ext_Ok {A B : Type} (f : A -> result B) (h : A -> B)
  (l : list A) :
  (forall x, In x l -> f x = Ok (h x)) -> map_result f l = Ok (map h l).
Proof.
  induction l as [|a l IH]; intros H; simpl; [reflexivity|].
  rewrite (H a (or_introl eq_refl)). simpl.
  rewrite IH by (intros x Hx; apply H; now right). reflexivity.
Qed.

(** The standard basis of any dimension is already orthogonal:
    [Gram_Schmidt(basis(dim))] returns [basis(dim)] for [dim >= 1] (and
    raises [IndexError] for [dim = 0], where the list is empty). *)
Theorem Gram_Schmidt_basis (dim : nat) :
  Gram_Schmidt (basis dim)
  = match dim with
    | O => Raise IndexError
    | S _ => Ok (basis dim)
    end.
Proof.
  destruct dim as [|n]; [reflexivity|].
  set (dim := S n).
  set (unit := fun i : nat =>
                 map (fun m => if Nat.eqb i m then 1 else 0) (range dim)).
  assert (Hb : basis dim = map (map Fin) (map unit (range dim))).
  { rewrite basis_reals, map_map. reflexivity. }
  assert (Hall : Forall (fun x => length x = dim) (map unit (range dim))).
  { apply Forall_forall. intros x Hx. apply in_map_iff in Hx.
    destruct Hx as [i [<- _]]. unfold unit, range.
    now rewrite length_map, length_seq. }
  assert (Hnth : forall k, (k < dim)%nat ->
            nth_error (map unit (range dim)) k = Some (unit k)).
  { intros k Hk. apply map_nth_error. unfold range.
    rewrite nth_error_nth' with (d := 0%nat) by (rewrite length_seq; lia).
    now rewrite seq_nth. }
  assert (Hrange : range dim = 0%nat :: seq 1 n) by reflexivity.
  assert (Hcons : basis dim
            = map Fin (unit 0%nat) :: map (fun k => map Fin (unit k)) (seq 1 n)).
  { rewrite Hb, map_map, Hrange. reflexivity. }
  destruct (Gram_Schmidt_terms dim (map Fin (unit 0%nat))
              (map (fun k => map Fin (unit k)) (seq 1 n)))
    as [outs [Hterms HGS]]; [lia | |].
  { apply Forall_forall. intros x [<- | Hx].
    - unfold unit, range. now rewrite !length_map, length_seq.
    - apply in_map_iff in Hx. destruct Hx as [k [<- _]].
      unfold unit, range. now rewrite !length_map, length_seq. }
  assert (HGS' : Gram_Schmidt (basis dim) = Ok (map Fin (unit 0%nat) :: outs))
    by (rewrite Hcons; exact HGS).
  assert (Hterms' :
    map_result (fun k => gs_term (basis dim) k (k - 1)) (seq 1 n) = Ok outs).
  { rewrite Hcons. rewrite length_map, length_seq in Hterms. exact Hterms. }
  clear HGS Hterms. rename Hterms' into Hterms.
  rewrite HGS', Hcons.
  rewrite (map_result_ext_Ok _ (fun k => map Fin (unit k))) in Hterms.
  - injection Hterms as <-. reflexivity.
  - intros k Hk. apply in_seq in Hk. rewrite Hb.
    rewrite (gs_term_reals dim (map unit (range dim)) k (k - 1)%nat
               (unit k) (unit (k - 1)%nat));
      [ | unfold dim; lia | exact Hall | apply Hnth; unfold dim; lia
        | apply Hnth; unfold dim; lia
        | apply unit_vector_nonzero; unfold dim; lia ].
    f_equal. unfold unit.
    rewrite (unit_vectors_orthogonal (k - 1)%nat k (range dim)) by lia.
    set (c := 0 / _). assert (Hc : c = 0) by (unfold c, Rdiv; lra).
    rewrite Hc. clear.
    induction (range dim) as [|m l IH]; simpl; [reflexivity|].
    rewrite IH. do 2 f_equal. lra.
Qed.

(* ------------------------------------------------------------------ *)
(** ** ExponentIterator: when it returns and when it raises *)

Lemma for_each_invariant {I S : Type} (P : S -> Prop) (l : list I)
  (body : I -> S -> result S) (s : S) :
  P s ->
  (forall i s0, In i l -> P s0 -> exists s1, body i s0 = Ok s1 /\ P s1) ->
  exists s', for_each l body s = Ok s' /\ P s'.
Proof.
  revert s; induction l as [|i l IH]; intros s Hs Hbody; simpl.
  - eauto.
  - destruct (Hbody i s (or_introl eq_refl) Hs) as [s1 [-> Hs1]]. simpl.
    apply IH; auto. intros j s0 Hj. apply Hbody. now right.
Qed.

Lemma map_result_Forall {A B : Type} (P : B -> Prop) (f : A -> result B)
  (l : list A) (out : list B) :
  map_result f l = Ok out ->
  (forall x y, In x l -> f x = Ok y -> P y) -> Forall P out.
Proof.
  revert out; induction l as [|a l IH]; intros out; simpl.
  - intros [= <-] _. constructor.
  - destruct (f a) as [y|e] eqn:Ha; simpl; [|discriminate].
    destruct (map_result f l) as [ys|e] eqn:Hl; simpl; [|discriminate].
    intros [= <-] H. constructor; [eapply H; eauto|].
    apply IH; auto. intros x z Hx. apply H. now right.
Qed.

Lemma map_result_getitem_range {A : Type} (pre l : list A) :
  map_result (getitem (pre ++ l)) (seq (length pre) (length l)) = Ok l.
Proof.
  revert pre; induction l as [|a l IH]; intros pre; simpl; [reflexivity|].
  unfold getitem at 1. rewrite nth_error_app2, Nat.sub_diag by lia. simpl.
  specialize (IH (pre ++ [a])). rewrite <- app_assoc, length_app in IH.
  simpl in IH. rewrite Nat.add_1_r in IH. rewrite IH. reflexivity.
Qed.

Lemma setitem_length {A : Type} (l : list A) (i : nat) (x : A) :
  length (setitem l i x) = length l.
Proof.
  revert i; induction l as [|a l IH]; intros [|i]; simpl; auto.
Qed.

Lemma setitem_Forall {A : Type} (P : A -> Prop) (l : list A) (i : nat)
  (x : A) :
  Forall P l -> P x -> Forall P (setitem l i x).
Proof.
  intros Hl Hx. revert i; induction Hl as [|a l Ha Hl IH]; intros [|i];
    simpl; auto.
Qed.

Lemma matmul_2d (J : list vec) (b : vec) :
  vectors_2d 2 J -> length b = 2%nat ->
  exists v, matmul J b = Ok v /\ length v = 2%nat.
Proof.
  intros [HJ Hrows] Hb. unfold matmul.
  assert (E : forallb (fun row => Nat.eqb (length row) (length b)) J = true).
  { apply forallb_forall. intros row Hrow. rewrite Forall_forall in Hrows.
    rewrite (Hrows row Hrow), Hb. reflexivity. }
  rewrite E. eexists. split; [reflexivity|]. now rewrite length_map.
Qed.

Lemma jacobian_2d (A B x : float) : vectors_2d 2 (jacobian A B x).
Proof. split; [reflexivity | repeat constructor]. Qed.

Lemma map_result_each {A B : Type} (P : B -> Prop) (f : A -> result B)
  (l : list A) :
  (forall x, In x l -> exists y, f x = Ok y /\ P y) ->
  exists out, map_result f l = Ok out /\ length out = length l /\
              Forall P out.
Proof.
  intros H. destruct (map_result_total f l) as [out Hout].
  { intros x Hx. destruct (H x Hx) as [y [Hy _]]. eauto. }
  exists out. split; [exact Hout|]. split.
  - eapply map_result_length; eauto.
  - eapply map_result_Forall; eauto. intros x y Hx Hy.
    destruct (H x Hx) as [y' [Hy' Py]]. congruence.
Qed.

Lemma Gram_Schmidt_2d (dim : nat) (vs : list vec) :
  (1 <= dim)%nat -> vectors_2d dim vs ->
  exists out, Gram_Schmidt vs = Ok out /\ vectors_2d dim out.
Proof.
  intros Hdim [Hlen Hall]. destruct vs as [|v0 rest]; [simpl in Hlen; lia|].
  destruct (Gram_Schmidt_terms 2 v0 rest) as [outs [Hterms HGS]];
    [lia | exact Hall |].
  exists (v0 :: outs). split; [exact HGS|]. split.
  - apply map_result_length in Hterms. rewrite length_seq in Hterms.
    simpl in *. lia.
  - inversion Hall; subst. constructor; [assumption|].
    eapply map_result_Forall; [exact Hterms|].
    intros k y Hk Hy. apply in_seq in Hk.
    destruct (getitem_in_range (v0 :: rest) k) as [vk [_ Hvk]];
      [simpl; lia|].
    destruct (getitem_in_range (v0 :: rest) (k - 1)) as [vp [_ Hvp]];
      [simpl; lia|].
    cbv beta in Hy.
    rewrite (gs_term_same_length 2 (v0 :: rest) k (k - 1)%nat vk vp
               (Nat.lt_0_succ 1) Hall Hvk Hvp) in Hy.
    injection Hy as <-.
    rewrite Forall_forall in Hall.
    pose proof (Hall _ (nth_error_In _ _ Hvk)) as Lk.
    pose proof (Hall _ (nth_error_In _ _ Hvp)) as Lp.
    rewrite zip_with_length; [assumption|].
    rewrite vscale_length. congruence.
Qed.

Lemma accumulate_2d (dim : nat) (u_nk : list vec) (exponents : list float) :
  vectors_2d dim u_nk -> length exponents = dim ->
  exists u e,
    for_each (range dim) accumulate (u_nk, exponents) = Ok (u, e) /\
    vectors_2d dim u /\ length e = dim.
Proof.
  intros Hu He.
  destruct (for_each_invariant
              (fun st => vectors_2d dim (fst st) /\ length (snd st) = dim)
              (range dim) accumulate (u_nk, exponents))
    as [[u e] [Hloop [Hu' He']]]; [split; assumption | |eauto].
  intros i [u e] Hi [[Hlen Hall] Hlen']. apply in_seq in Hi. simpl in *.
  destruct (getitem_in_range u i) as [u_i [Gu Nu]]; [lia|].
  destruct (getitem_in_range e i) as [e_i [Ge _]]; [lia|].
  rewrite Gu, Ge. simpl. eexists. split; [reflexivity|]. simpl.
  unfold vectors_2d. rewrite !setitem_length. repeat split; auto.
  apply setitem_Forall; [assumption|].
  unfold vdiv. rewrite length_map. rewrite Forall_forall in Hall.
  apply Hall. eapply nth_error_In; eauto.
Qed.

(** One propagation never raises on vectors of dimension 2, whatever
    their norms. *)
Lemma propagate_2d (dim : nat) (J vectors : list vec)
  (exponents : list float) :
  (1 <= dim)%nat -> vectors_2d 2 J -> vectors_2d dim vectors ->
  length exponents = dim ->
  exists u e,
    propagate dim J vectors exponents = Ok (u, e) /\
    vectors_2d dim u /\ length e = dim.
Proof.
  intros Hdim HJ [Hlen Hall] He. unfold propagate.
  destruct (@map_result_each vec vec (fun v => length v = 2%nat)
              (matmul J) vectors)
    as [v_nk [Hv [Lv Fv]]].
  { intros b Hb. apply matmul_2d; auto. rewrite Forall_forall in Hall.
    now apply Hall. }
  rewrite Hv. cbn [bind].
  pose proof (@map_result_getitem_range vec [] v_nk) as Hsel.
  simpl in Hsel. rewrite Lv, Hlen in Hsel. fold (range dim) in Hsel.
  rewrite Hsel. cbn [bind].
  destruct (Gram_Schmidt_2d dim v_nk) as [out [HGS Hout]]; auto.
  { split; [congruence | exact Fv]. }
  rewrite HGS. cbn [bind]. now apply accumulate_2d.
Qed.

Lemma lya_init_2d (basis : list vec) (xvalues : list float) (A B : float) :
  basis <> [] -> Forall (fun b => length b = 2%nat) basis ->
  xvalues <> [] ->
  exists st, lya_init basis xvalues A B = Ok st /\
             lya_shape (length basis) st.
Proof.
  intros Hne Hall Hx. unfold lya_init.
  destruct xvalues as [|x0 xs]; [contradiction|].
  change (getitemZ (x0 :: xs) 0) with (Ok x0). cbn [bind].
  destruct (propagate_2d (length basis) (jacobian A B x0) basis
              (map (fun _ => of_Z 0) (range (length basis))))
    as (u & e & Hp & Hu & He).
  - destruct basis; [contradiction | simpl; lia].
  - apply jacobian_2d.
  - split; auto.
  - unfold range. now rewrite length_map, length_seq.
  - rewrite Hp. cbn [bind fst snd]. eexists. split; [reflexivity|].
    simpl. auto using jacobian_2d.
Qed.

(** The passes [a, a+1, ..., a+m-1] of the loop: they all succeed when the
    orbit has the values they read, and the first pass whose value is
    missing raises [IndexError]. *)
Lemma lya_passes_2d (dim : nat) (xvalues : list float) (A B : float)
  (m a : nat) (st : lya_state) :
  (1 <= dim)%nat -> lya_shape dim st ->
  ((a + m <= length xvalues)%nat ->
   exists st',
     for_each (map Z.of_nat (seq a m)) (lya_step A B xvalues dim) st
     = Ok st' /\ lya_shape dim st') /\
  ((length xvalues < a + m)%nat -> (1 <= m)%nat ->
   for_each (map Z.of_nat (seq a m)) (lya_step A B xvalues dim) st
   = Raise IndexError).
Proof.
  intros Hdim. revert a st; induction m as [|m IH]; intros a st Hst.
  - split; [intros _; simpl; eauto | lia].
  - destruct st as [[J u] e]. destruct Hst as (HJ & Hu & He).
    destruct (propagate_2d dim J u e Hdim HJ Hu He)
      as (u' & e' & Hp & Hu' & He').
    simpl. rewrite Hp. cbn [bind fst snd]. rewrite getitemZ_of_nat.
    unfold getitem.
    destruct (nth_error xvalues a) as [x|] eqn:Ex; simpl.
    + assert (a < length xvalues)%nat by (apply nth_error_Some; congruence).
      destruct (IH (S a) (jacobian A B x, u', e')) as [IH1 IH2].
      { simpl. auto using jacobian_2d. }
      split.
      * intros Hle. apply IH1. lia.
      * intros Hlt _. destruct m as [|m].
        -- lia.
        -- apply IH2; lia.
    + apply nth_error_None in Ex. split; [lia | reflexivity].
Qed.

Lemma Lyapunov_result_length (N : Z) (basis : list vec)
  (xvalues : list float) (A B : float) (lya : list float) :
  Lyapunov N basis xvalues A B = Ok lya -> length lya = length basis.
Proof.
  rewrite Lyapunov_exponents_of.
  destruct (lya_loop _ _ _ _ _) as [st|e]; simpl; [|discriminate].
  intros H. apply map_result_length in H. unfold range in H.
  now rewrite length_seq in H.
Qed.

(** On a non-empty basis of vectors of dimension 2, [Lyapunov] returns one
    exponent per basis vector exactly when the orbit has at least
    [max(N, 1)] values, and raises [IndexError] otherwise; vectors of norm
    zero never make it raise. *)
Theorem Lyapunov_returns_iff_orbit_long_enough (N : Z) (basis : list vec)
  (xvalues : list float) (A B : float) :
  basis <> [] -> Forall (fun b => length b = 2%nat) basis ->
  ((Z.max N 1 <= Z.of_nat (length xvalues))%Z ->
   exists lya, Lyapunov N basis xvalues A B = Ok lya /\
               length lya = length basis) /\
  ((Z.of_nat (length xvalues) < Z.max N 1)%Z ->
   Lyapunov N basis xvalues A B = Raise IndexError).
Proof.
  intros Hne Hall.
  assert (Hdim : (1 <= length basis)%nat)
    by (destruct basis; [contradiction | simpl; lia]).
  rewrite Lyapunov_exponents_of. unfold lya_loop, range_from_1.
  destruct xvalues as [|x0 xs].
  - split; [simpl; lia|]. intros _. reflexivity.
  - destruct (lya_init_2d basis (x0 :: xs) A B Hne Hall)
      as [st0 [Hinit Hst0]]; [discriminate|].
    rewrite Hinit. cbn [bind].
    destruct (lya_passes_2d (length basis) (x0 :: xs) A B
                (Z.to_nat (N - 1)) 1 st0 Hdim Hst0) as [Hok Herr].
    split.
    + intros Hlen. destruct Hok as [[[J u] e] [Hloop Hst]].
      { simpl length in *. lia. }
      rewrite Hloop. cbn [bind]. destruct Hst as (_ & _ & He).
      destruct (map_result_each (fun _ => True)
                  (fun i => e0 <- getitem (exponents_of (J, u, e)) i ;;
                            Ok (fdiv e0 (of_Z N)))
                  (range (length basis))) as [lya [Hl [Ll _]]].
      { intros i Hi. apply in_seq in Hi. simpl.
        destruct (getitem_in_range e i) as [ei [Gi _]]; [lia|].
        rewrite Gi. simpl. eauto. }
      exists lya. split; [exact Hl|]. unfold range in Ll.
      now rewrite length_seq in Ll.
    + intros Hlen. rewrite Herr; [reflexivity| |]; simpl length in *; lia.
Qed.

Lemma Lyapunov_returns_iff_orbit_long_enough_witness :
  (exists lya, Lyapunov 2 (basis 2) [Fin 1; Fin 0] (Fin 1) (Fin 0) = Ok lya /\
               length lya = length (basis 2)) /\
  Lyapunov 2 (basis 2) [Fin 1] (Fin 1) (Fin 0) = Raise IndexError.
Proof.
  split.
  - apply (Lyapunov_returns_iff_orbit_long_enough 2 (basis 2)
             [Fin 1; Fin 0] (Fin 1) (Fin 0)).
    + discriminate.
    + repeat constructor.
    + simpl. lia.
  - apply (Lyapunov_returns_iff_orbit_long_enough 2 (basis 2)
             [Fin 1] (Fin 1) (Fin 0)).
    + discriminate.
    + repeat constructor.
    + simpl. lia.
Defined.

(** Orbit values beyond the ones the loop reads are ignored. *)
Theorem Lyapunov_ignores_orbit_tail (N : Z) (basis : list vec)
  (xvalues extra : list float) (A B : float) :
  (Z.max N 1 <= Z.of_nat (length xvalues))%Z ->
  Lyapunov N basis (xvalues ++ extra) A B = Lyapunov N basis xvalues A B.
Proof.
  intros Hlen.
  assert (Hget : forall k, (k < length xvalues)%nat ->
            getitemZ (xvalues ++ extra) (Z.of_nat k)
            = getitemZ xvalues (Z.of_nat k)).
  { intros k Hk. rewrite !getitemZ_of_nat. unfold getitem.
    now rewrite nth_error_app1. }
  rewrite !Lyapunov_exponents_of. unfold lya_loop.
  assert (Hinit : lya_init basis (xvalues ++ extra) A B
                  = lya_init basis xvalues A B).
  { unfold lya_init. change 0%Z with (Z.of_nat 0).
    rewrite (Hget 0%nat) by lia. reflexivity. }
  rewrite Hinit.
  destruct (lya_init basis xvalues A B) as [st0|err]; simpl; [|reflexivity].
  rewrite (for_each_ext_in _ (lya_step A B (xvalues ++ extra) (length basis))
             (lya_step A B xvalues (length basis))); [reflexivity|].
  intros n s Hn. unfold range_from_1 in Hn. apply in_map_iff in Hn.
  destruct Hn as [k [<- Hk]]. apply in_seq in Hk.
  apply lya_step_agree, Hget. lia.
Qed.

Lemma Lyapunov_ignores_orbit_tail_witness :
  Lyapunov 2 (basis 2) ([Fin 1; Fin 0] ++ [Fin 5; NaN]) (Fin 1) (Fin 1)
  = Lyapunov 2 (basis 2) [Fin 1; Fin 0] (Fin 1) (Fin 1).
Proof. apply Lyapunov_ignores_orbit_tail. simpl. lia. Defined.

Lemma map_result_first_error {A B : Type} (f : A -> result B) (e : exn)
  (l : list A) :
  (forall x, In x l -> f x = Raise e \/ exists y, f x = Ok y) ->
  (exists x, In x l /\ f x = Raise e) ->
  map_result f l = Raise e.
Proof.
  induction l as [|a l IH]; intros Hall [x [Hin Hx]]; [destruct Hin|].
  simpl. destruct (Hall a (or_introl eq_refl)) as [-> | [y Hy]];
    [reflexivity|].
  rewrite Hy. simpl. rewrite IH; [reflexivity | |].
  - intros z Hz. apply Hall. now right.
  - destruct Hin as [-> | Hin]; [congruence | eauto].
Qed.

(** [Lyapunov] works in dimension 2 only: with a basis vector of another
    length the first matrix product raises [ValueError]. *)
Theorem Lyapunov_wrong_dimension (N : Z) (basis : list vec)
  (xvalues : list float) (A B : float) :
  xvalues <> [] ->
  (exists b, In b basis /\ length b <> 2%nat) ->
  Lyapunov N basis xvalues A B = Raise ValueError.
Proof.
  intros Hx Hbad. unfold Lyapunov, lya_loop, lya_init.
  destruct xvalues as [|x0 xs]; [contradiction|].
  change (getitemZ (x0 :: xs) 0) with (Ok x0). cbn [bind].
  unfold propagate.
  rewrite (map_result_first_error (matmul (jacobian A B x0)) ValueError).
  - reflexivity.
  - intros b _. unfold matmul.
    destruct (forallb _ _); [right; eauto | now left].
  - destruct Hbad as [b [Hin Hlen]]. exists b. split; [exact Hin|].
    unfold matmul, jacobian. cbn [forallb length].
    destruct (Nat.eqb_spec 2 (length b)); [congruence | reflexivity].
Qed.

Lemma Lyapunov_wrong_dimension_witness :
  Lyapunov 10 (basis 3) [Fin 1] (Fin 1) (Fin 1) = Raise ValueError.
Proof.
  apply Lyapunov_wrong_dimension.
  - discriminate.
  - exists [Fin 1; Fin 0; Fin 0]. split; [now left | simpl; lia].
Defined.

Lemma fdiv_zero_non_finite (e : float) : non_finite (fdiv e (of_Z 0)).
Proof.
  destruct e as [x| | |]; simpl; auto.
  - destruct (Req_dec_T 0 0) as [_|NE]; [|lra].
    unfold inf_times. destruct (Rlt_dec 0 x); [exact I|].
    destruct (Rlt_dec x 0); exact I.
  - destruct (Rlt_dec 0 0); exact I.
  - destruct (Rlt_dec 0 0); exact I.
Qed.

(** With [N = 0] the loop is skipped and the accumulators are divided by
    zero: [Lyapunov] does not raise, and every exponent it returns is an
    infinity or [nan]. *)
Theorem Lyapunov_zero_steps (basis : list vec) (xvalues : list float)
  (A B : float) :
  basis <> [] -> Forall (fun b => length b = 2%nat) basis ->
  xvalues <> [] ->
  exists lya,
    Lyapunov 0 basis xvalues A B = Ok lya /\
    length lya = length basis /\ Forall non_finite lya.
Proof.
  intros Hne Hall Hx. rewrite Lyapunov_exponents_of. unfold lya_loop.
  destruct (lya_init_2d basis xvalues A B Hne Hall Hx)
    as [[[J u] e] [Hinit (_ & _ & He)]].
  rewrite Hinit. change (range_from_1 0) with (@nil Z). cbn [bind for_each].
  destruct (map_result_each non_finite
              (fun i => e0 <- getitem (exponents_of (J, u, e)) i ;;
                        Ok (fdiv e0 (of_Z 0)))
              (range (length basis))) as [lya [Hl [Ll Fl]]].
  { intros i Hi. apply in_seq in Hi. simpl.
    destruct (getitem_in_range e i) as [ei [Gi _]]; [lia|].
    rewrite Gi. simpl. eexists. split; [reflexivity|].
    apply fdiv_zero_non_finite. }
  exists lya. repeat split; auto. unfold range in Ll.
  now rewrite length_seq in Ll.
Qed.

Lemma Lyapunov_zero_steps_witness :
  exists lya,
    Lyapunov 0 (basis 2) [Fin 1] (Fin 1) (Fin 1) = Ok lya /\
    length lya = length (basis 2) /\ Forall non_finite lya.
Proof.
  apply Lyapunov_zero_steps.
  - discriminate.
  - repeat constructor.
  - discriminate.
Defined.

(* ------------------------------------------------------------------ *)
(** ** ClosedFormEstimators: closed forms and the order of the means *)

Lemma fle_real_or_ninf_cases (a b : float) :
  real_or_ninf a -> real_or_ninf b -> fle b a = true ->
  pymax a b = a /\ pymin a b = b.
Proof.
  unfold pymax, pymin, fgt.
  destruct a as [x| | |], b as [y| | |]; simpl; try contradiction;
    try discriminate; intros _ _; auto.
  destruct (Rle_dec y x); [|discriminate]. intros _.
  destruct (Rlt_dec x y); [lra|]. destruct (Rlt_dec y x); auto.
  split; auto. f_equal. lra.
Qed.

Lemma fadd_monotone (a b c d : float) :
  real_or_ninf a -> real_or_ninf b -> real_or_ninf c -> real_or_ninf d ->
  fle b a = true -> fle d c = true -> fle (fadd b d) (fadd a c) = true.
Proof.
  destruct a as [x| | |], b as [y| | |], c as [z| | |], d as [w| | |];
    simpl; try contradiction; try discriminate; auto; intros _ _ _ _.
  destruct (Rle_dec y x); [|discriminate].
  destruct (Rle_dec w z); [|discriminate].
  destruct (Rle_dec (y + w) (x + z)); [reflexivity | lra].
Qed.

Lemma fdiv_monotone (a b : float) (n : R) :
  0 < n -> real_or_ninf a -> real_or_ninf b -> fle b a = true ->
  fle (fdiv b (Fin n)) (fdiv a (Fin n)) = true.
Proof.
  intros Hn.
  destruct a as [x| | |], b as [y| | |]; simpl; try contradiction;
    try discriminate; intros _ _;
    destruct (Req_dec_T n 0); try lra; destruct (Rlt_dec n 0); try lra;
    simpl; auto.
  destruct (Rle_dec y x); [|discriminate]. intros _.
  destruct (Rle_dec (y / n) (x / n)) as [|NE]; [reflexivity|].
  exfalso. apply NE. unfold Rdiv. apply Rmult_le_compat_r; [|assumption].
  left. now apply Rinv_0_lt_compat.
Qed.

Lemma sums_monotone {A : Type} (f1 f2 : A -> float) (xs : list A)
  (a1 a2 : float) :
  (forall x, In x xs ->
     real_or_ninf (f1 x) /\ real_or_ninf (f2 x) /\ fle (f2 x) (f1 x) = true) ->
  real_or_ninf a1 -> real_or_ninf a2 -> fle a2 a1 = true ->
  real_or_ninf (fold_left fadd (map f1 xs) a1) /\
  real_or_ninf (fold_left fadd (map f2 xs) a2) /\
  fle (fold_left fadd (map f2 xs) a2) (fold_left fadd (map f1 xs) a1) = true.
Proof.
  revert a1 a2; induction xs as [|x xs IH]; intros a1 a2 H H1 H2 Hle;
    simpl; auto.
  destruct (H x (or_introl eq_refl)) as (R1 & R2 & L).
  apply IH.
  - intros y Hy. apply H. now right.
  - now apply real_or_ninf_fadd.
  - now apply real_or_ninf_fadd.
  - now apply fadd_monotone.
Qed.

Section ClosedFormFurther.

Context (O : Oracles).

Lemma lyapunov_point_sorted (xp av bv : float) :
  finite_moduli_at O av bv xp ->
  real_or_ninf (nth 0 (lyapunov_point O xp av bv) NaN) /\
  real_or_ninf (nth 1 (lyapunov_point O xp av bv) NaN) /\
  fle (nth 1 (lyapunov_point O xp av bv) NaN)
      (nth 0 (lyapunov_point O xp av bv) NaN) = true.
Proof.
  intros HO.
  destruct (lyapunov_point_real_or_ninf O xp av bv HO) as [H0 H1].
  repeat split; auto.
  destruct HO as (r1 & r2 & P1 & P2 & E1 & E2).
  unfold lyapunov_point. destruct (solve_eig_vals O xp av bv) as [s1 s2].
  simpl in *. rewrite E1, E2.
  apply pymax_pymin_sorted; now apply real_or_ninf_flog.
Qed.

(** For eigenvalues of positive moduli [r1] and [r2], [lyapunov_point]
    returns [ln(max(r1, r2))] and [ln(min(r1, r2))], whichever eigenvalue
    the oracle lists first. *)
Theorem lyapunov_point_closed_form (xp av bv : float) (r1 r2 : R) :
  eig_abs O (fst (solve_eig_vals O xp av bv)) = Fin r1 ->
  eig_abs O (snd (solve_eig_vals O xp av bv)) = Fin r2 ->
  0 < r1 -> 0 < r2 ->
  lyapunov_point O xp av bv
  = [Fin (ln (Rmax r1 r2)); Fin (ln (Rmin r1 r2))].
Proof.
  intros E1 E2 H1 H2. unfold lyapunov_point.
  destruct (solve_eig_vals O xp av bv) as [s1 s2]. simpl in *.
  rewrite E1, E2. unfold pymax, pymin, fgt. simpl.
  destruct (Rlt_dec 0 r1); [|lra]. destruct (Rlt_dec 0 r2); [|lra].
  simpl. destruct (Rle_dec r1 r2) as [Hle|Hgt].
  - rewrite (Rmax_right r1 r2 Hle), (Rmin_left r1 r2 Hle).
    destruct (Rlt_dec (ln r1) (ln r2)) as [L|NL].
    + destruct (Rlt_dec (ln r2) (ln r1)); [lra | reflexivity].
    + assert (r1 = r2).
      { destruct Hle as [Hlt|]; [|assumption].
        exfalso. apply NL. now apply ln_increasing. }
      subst. destruct (Rlt_dec (ln r2) (ln r2)); [lra | reflexivity].
  - assert (Hlt : r2 < r1) by lra.
    rewrite (Rmax_left r1 r2) by lra. rewrite (Rmin_right r1 r2) by lra.
    pose proof (ln_increasing r2 r1 H2 Hlt) as L.
    destruct (Rlt_dec (ln r1) (ln r2)); [lra|].
    destruct (Rlt_dec (ln r2) (ln r1)); [reflexivity | lra].
Qed.

Lemma lyapunov_period_means (xpoints : list float) (av bv : float) :
  finite_moduli_on O xpoints av bv -> xpoints <> [] ->
  lyapunov_period O xpoints av bv
  = Ok [np_mean (map (fun x => nth 0 (lyapunov_point O x av bv) NaN)
                     xpoints);
        np_mean (map (fun x => nth 1 (lyapunov_point O x av bv) NaN)
                     xpoints)].
Proof.
  intros HO Hne. unfold lyapunov_period. rewrite period_loop.
  cbn [bind app].
  set (f1 := fun x => nth 0 (lyapunov_point O x av bv) NaN).
  set (f2 := fun x => nth 1 (lyapunov_point O x av bv) NaN).
  destruct (sums_monotone f1 f2 xpoints (Fin 0) (Fin 0)) as (S1 & S2 & L).
  { intros x Hx. apply lyapunov_point_sorted. exact (HO x Hx). }
  { exact I. } { exact I. }
  { simpl. destruct (Rle_dec 0 0); [reflexivity | lra]. }
  assert (Hn : 0 < IZR (Z.of_nat (length xpoints))).
  { apply IZR_lt. destruct xpoints; [contradiction | simpl; lia]. }
  assert (M1 : real_or_ninf (np_mean (map f1 xpoints))).
  { apply real_or_ninf_mean.
    - destruct xpoints; [contradiction | discriminate].
    - apply Forall_forall. intros y Hy. apply in_map_iff in Hy.
      destruct Hy as [x [<- Hx]]. apply lyapunov_point_sorted.
      exact (HO x Hx). }
  assert (M2 : real_or_ninf (np_mean (map f2 xpoints))).
  { apply real_or_ninf_mean.
    - destruct xpoints; [contradiction | discriminate].
    - apply Forall_forall. intros y Hy. apply in_map_iff in Hy.
      destruct Hy as [x [<- Hx]]. apply lyapunov_point_sorted.
      exact (HO x Hx). }
  assert (ML : fle (np_mean (map f2 xpoints)) (np_mean (map f1 xpoints))
               = true).
  { unfold np_mean, pysum, of_Z. rewrite !length_map.
    now apply fdiv_monotone. }
  destruct (fle_real_or_ninf_cases _ _ M1 M2 ML) as [-> ->]. reflexivity.
Qed.

(** The means of the two branches are already in order, so the final
    [max]/[min] of [lyapunov_period] never swaps them: on a non-empty
    cycle at whose points the moduli are finite, the result is the mean of
    the first entries followed by the mean of the second entries. *)
Theorem lyapunov_period_never_swaps (xpoints : list float)
  (av bv : float) :
  finite_moduli_on O xpoints av bv -> xpoints <> [] ->
  lyapunov_period O xpoints av bv
  = Ok [np_mean (map (fun x => nth 0 (lyapunov_point O x av bv) NaN)
                     xpoints);
        np_mean (map (fun x => nth 1 (lyapunov_point O x av bv) NaN)
                     xpoints)].
Proof. apply lyapunov_period_means. Qed.

Lemma np_mean_single (v : float) : real_or_ninf v -> np_mean [v] = v.
Proof.
  destruct v as [r| | |]; simpl; try contradiction; intros _;
    unfold np_mean, pysum, of_Z; simpl.
  - destruct (Req_dec_T 1 0); [lra|]. f_equal. field.
  - destruct (Rlt_dec 1 0); [lra | reflexivity].
Qed.

(** A cycle of one point has the exponents of that point:
    [lyapunov_period([x], a, b)] equals [lyapunov_point(x, a, b)]. *)
Theorem lyapunov_period_single_point (x av bv : float) :
  finite_moduli_at O av bv x ->
  lyapunov_period O [x] av bv = Ok (lyapunov_point O x av bv).
Proof.
  intros HO. rewrite lyapunov_period_means;
    [| intros y [<- | []]; exact HO | discriminate].
  destruct (lyapunov_point_sorted x av bv HO) as (R0 & R1 & _).
  simpl map. rewrite !np_mean_single by assumption.
  now rewrite <- lyapunov_point_branches.
Qed.

End ClosedFormFurther.

Lemma lyapunov_point_closed_form_witness :
  lyapunov_point (sample_oracles None None None None) (Fin 0) (Fin 1) (Fin 1)
  = [Fin (ln (Rmax 2 (1 / 2))); Fin (ln (Rmin 2 (1 / 2)))].
Proof.
  apply (lyapunov_point_closed_form (sample_oracles None None None None)
           (Fin 0) (Fin 1) (Fin 1) 2 (1 / 2)); try reflexivity; lra.
Defined.

Lemma lyapunov_period_never_swaps_witness :
  lyapunov_period (sample_oracles None None None None) [Fin 0; Fin 1]
    (Fin 1) (Fin 1)
  = Ok [np_mean (map (fun x => nth 0 (lyapunov_point
                        (sample_oracles None None None None) x (Fin 1)
                        (Fin 1)) NaN) [Fin 0; Fin 1]);
        np_mean (map (fun x => nth 1 (lyapunov_point
                        (sample_oracles None None None None) x (Fin 1)
                        (Fin 1)) NaN) [Fin 0; Fin 1])].
Proof.
  apply (lyapunov_period_never_swaps (sample_oracles None None None None)).
  - intros x _. exists 2, (1 / 2). simpl.
    repeat split; try reflexivity; lra.
  - discriminate.
Defined.

Lemma lyapunov_period_single_point_witness :
  lyapunov_period (sample_oracles None None None None) [Fin 0] (Fin 1) (Fin 1)
  = Ok (lyapunov_point (sample_oracles None None None None) (Fin 0) (Fin 1)
          (Fin 1)).
Proof.
  apply (lyapunov_period_single_point (sample_oracles None None None None)).
  exists 2, (1 / 2). simpl.
  repeat split; try reflexivity; lra.
Defined.

(* ------------------------------------------------------------------ *)
(** ** AttractorClassifier: the whole table *)

(** For real exponents and a positive tolerance [det_att] always returns a
    label, and the regions of the first exponent are told apart by
    comparisons alone: 0 or 1 below the band, 2 strictly inside it, 3 and
    4 from the upper edge on (3 when the second exponent is below the
    tolerance), and 5 on the lower edge alone.  Which of 0 and 1 is
    returned below the band depends on the sum [lya2 + acc] and is left
    open here. *)
Theorem det_att_table (l1 l2 acc : R) :
  0 < acc ->
  let r := det_att (Some (Fin l1)) (Some (Fin l2)) (Fin acc) in
  (exists label, r = Ok label /\ (0 <= label <= 5)%Z) /\
  (r = Ok 0%Z \/ r = Ok 1%Z <-> l1 < - acc) /\
  (r = Ok 2%Z <-> - acc < l1 < acc) /\
  (r = Ok 3%Z <-> acc <= l1 /\ l2 < acc) /\
  (r = Ok 4%Z <-> acc <= l1 /\ acc <= l2) /\
  (r = Ok 5%Z <-> l1 = - acc).
Proof.
  intros Hacc r. subst r. unfold det_att, fgt, of_Z; simpl.
  real_cases; simpl; repeat split; intros;
    try (eexists; split; [reflexivity | lia]);
    try tauto; try congruence; try lra;
    try (left; reflexivity); try (right; reflexivity);
    try (destruct H; congruence).
Qed.

Lemma det_att_table_witness :
  det_att (Some (Fin 0)) (Some (Fin (-5))) (Fin (1 / 10)) = Ok 2%Z.
Proof.
  apply (det_att_table 0 (-5) (1 / 10)); lra.
Defined.

(** With a number as first exponent and [None] as second, [det_att]
    raises [TypeError] exactly outside the band and its lower edge, where
    the second exponent is compared. *)
Theorem det_att_second_None (l1 acc : R) :
  0 < acc ->
  (det_att (Some (Fin l1)) None (Fin acc) = Raise TypeError
   <-> l1 < - acc \/ acc <= l1).
Proof.
  intros Hacc. unfold det_att, fgt, of_Z; simpl.
  real_cases; simpl; split; intros; try congruence; try lra.
Qed.

Lemma det_att_second_None_witness :
  det_att (Some (Fin 1)) None (Fin (1 / 10)) = Raise TypeError.
Proof.
  apply (det_att_second_None 1 (1 / 10)); lra.
Defined.

(* ------------------------------------------------------------------ *)
(** ** SpectrumDispatcher: shapes, diverging sweeps, agreement of the
       branches *)


Lemma collect_shape {I E1 E2 : Type} (P1 : E1 -> Prop) (P2 : E2 -> Prop)
  (cell : I -> traced (E1 * E2)) (l : list I)
  (a1 r1 : list E1) (a2 r2 : list E2) (t : list call) :
  (forall v t' e, In v l -> cell v = (t', Ok e) -> P1 (fst e) /\ P2 (snd e)) ->
  Forall P1 a1 -> Forall P2 a2 ->
  tfor_each l (collect cell) (a1, a2) = (t, Ok (r1, r2)) ->
  length r1 = (length a1 + length l)%nat /\
  length r2 = (length a2 + length l)%nat /\
  Forall P1 r1 /\ Forall P2 r2.
Proof.
  revert a1 a2 t; induction l as [|v l IH]; intros a1 a2 t H F1 F2; simpl.
  - intros [= _ <- <-]. repeat split; auto; lia.
  - unfold collect at 1.
    destruct (cell v) as [tc [e|err]] eqn:Ec; simpl; [|discriminate].
    destruct (tfor_each l (collect cell) (a1 ++ [fst e], a2 ++ [snd e]))
      as [t2 [[q1 q2]|err]] eqn:E; simpl; [|discriminate].
    intros [= _ <- <-].
    destruct (H v tc e (or_introl eq_refl) Ec) as [Pe1 Pe2].
    apply IH in E.
    + rewrite !length_app in E. simpl in E.
      destruct E as (L1 & L2 & Q1 & Q2). repeat split; auto; lia.
    + intros w t' e' Hw. apply H. now right.
    + apply Forall_app. auto.
    + apply Forall_app. auto.
Qed.

Section DispatcherFurther.

Context (O : Oracles).
Context (Ninit cutoff : Z) (start : list float) (div : bool).


Lemma grid_collect (As Bs : list float) :
  calc_lya_henon O Ninit cutoff start div (NdArray As) (NdArray Bs)
  = (grids <~ tfor_each As
       (collect (fun a =>
                   sweep_row (fun b => sweep_cell O Ninit cutoff start div
                                         (Some (basis (length start))) a b)
                             Bs))
       ([], []) ;;
     tret (RetGrid (fst grids) (snd grids))).
Proof. reflexivity. Qed.

Lemma grid_shape_of (As Bs : list float) (t : list call) (r : retval) :
  calc_lya_henon O Ninit cutoff start div (NdArray As) (NdArray Bs)
  = (t, Ok r) ->
  exists all_exp1 all_exp2,
    r = RetGrid all_exp1 all_exp2 /\
    grid_shape (length As) (length Bs) all_exp1 /\
    grid_shape (length As) (length Bs) all_exp2.
Proof.
  rewrite grid_collect.
  destruct (tfor_each As _ _) as [t1 [[g1 g2]|err]] eqn:E; simpl;
    [|discriminate].
  intros [= _ <-]. exists g1, g2. split; [reflexivity|].
  apply (collect_shape (fun row => length row = length Bs)
           (fun row => length row = length Bs)) in E; auto.
  - unfold grid_shape. simpl in E. tauto.
  - intros a t' [row1 row2] _ Hrow. now apply sweep_row_length in Hrow.
Qed.

(** A sweep over two arrays that returns gives two grids with one row
    per element of [A] and one column per element of [B]. *)
Theorem calc_lya_henon_grid_shape (As Bs : list float) (t : list call)
  (r : retval) :
  calc_lya_henon O Ninit cutoff start div (NdArray As) (NdArray Bs)
  = (t, Ok r) ->
  exists all_exp1 all_exp2,
    r = RetGrid all_exp1 all_exp2 /\
    grid_shape (length As) (length Bs) all_exp1 /\
    grid_shape (length As) (length Bs) all_exp2.
Proof. apply grid_shape_of. Qed.



End DispatcherFurther.

Lemma calc_lya_henon_grid_shape_witness :
  exists all_exp1 all_exp2,
    RetGrid [[None]; [None]] [[None]; [None]] = RetGrid all_exp1 all_exp2 /\
    grid_shape 2 1 all_exp1 /\ grid_shape 2 1 all_exp2.
Proof.
  apply (calc_lya_henon_grid_shape (sample_oracles None None None None)
           10 0 [Fin 0; Fin 0] true [Fin 1; Fin 2] [Fin 3]
           [CallHenon (Fin 0) (Fin 0) 10 (Fin 1) (Fin 3) true;
            CallHenon (Fin 0) (Fin 0) 10 (Fin 2) (Fin 3) true]).
  reflexivity.
Defined.



Lemma pymax_pymin_idempotent (a b : float) :
  pymax (pymax a b) (pymin a b) = pymax a b /\
  pymin (pymax a b) (pymin a b) = pymin a b.
Proof.
  unfold pymax, pymin, fgt.
  destruct (flt a b) eqn:Eab, (flt b a) eqn:Eba;
    rewrite ?Eab, ?Eba; try (split; reflexivity);
    destruct (flt b b), (flt a a); split; reflexivity.
Qed.

Lemma basis_length (dim : nat) : length (basis dim) = dim.
Proof. unfold basis, range. now rewrite length_map, length_seq. Qed.

Lemma orbits_generated_app (t1 t2 : list call) :
  orbits_generated (t1 ++ t2) = orbits_generated t1 ++ orbits_generated t2.
Proof. apply flat_map_app. Qed.

Lemma collect_orbits {I E1 E2 : Type} (cell : I -> traced (E1 * E2))
  (g : I -> list (float * float)) (l : list I)
  (a1 r1 : list E1) (a2 r2 : list E2) (t : list call) :
  (forall v t' e, In v l -> cell v = (t', Ok e) ->
                  orbits_generated t' = g v) ->
  tfor_each l (collect cell) (a1, a2) = (t, Ok (r1, r2)) ->
  orbits_generated t = flat_map g l.
Proof.
  revert a1 a2 t; induction l as [|v l IH]; intros a1 a2 t H; simpl.
  - intros [= <- _ _]. reflexivity.
  - unfold collect at 1.
    destruct (cell v) as [tc [e|err]] eqn:Ec; simpl; [|discriminate].
    destruct (tfor_each l (collect cell) (a1 ++ [fst e], a2 ++ [snd e]))
      as [t2 [[q1 q2]|err]] eqn:E; simpl; [|discriminate].
    intros [= <- <- <-]. rewrite app_nil_r, orbits_generated_app.
    rewrite (H v tc e (or_introl eq_refl) Ec). f_equal.
    eapply IH; [|exact E]. intros w t' e' Hw. apply H. now right.
Qed.

Section DispatcherAgreement.

Context (O : Oracles).
Context (Ninit cutoff : Z) (start : list float) (div : bool).

(** A cell that returns has generated exactly one orbit. *)
Lemma sweep_cell_one_orbit (basisVects : option (list vec)) (a b : float)
  (t : list call) (e : option float * option float) :
  sweep_cell O Ninit cutoff start div basisVects a b = (t, Ok e) ->
  orbits_generated t = [(a, b)].
Proof.
  unfold sweep_cell, cell_generic.
  destruct start as [|x0 [|y0 rest]]; simpl; try discriminate.
  destruct (Henon O x0 y0 Ninit a b div) as [[xs|] yv]; simpl;
    [|intros [= <- _]; reflexivity].
  destruct (determine_point O (Some xs) yv) as [[p|]|]; simpl;
    try discriminate;
    (destruct (determine_period O (Some xs) yv) as [[c|]|]; simpl;
     try discriminate).
  - destruct (getitem _ 0); simpl; [|discriminate].
    destruct (getitem _ 1); simpl; [|discriminate].
    intros [= <- _]. reflexivity.
  - destruct (getitem _ 0); simpl; [|discriminate].
    destruct (getitem _ 1); simpl; [|discriminate].
    intros [= <- _]. reflexivity.
  - destruct (lyapunov_period O (snd c) a b) as [l|]; simpl;
      [|discriminate].
    destruct (getitem l 0); simpl; [|discriminate].
    destruct (getitem l 1); simpl; [|discriminate].
    intros [= <- _]. reflexivity.
  - destruct basisVects as [bv|]; simpl; [|discriminate].
    destruct (Lyapunov _ bv _ a b) as [lya|]; simpl; [|discriminate].
    destruct lya as [|l0 lya]; simpl; [discriminate|].
    intros [= <- _]. reflexivity.
Qed.

(** A sweep over two arrays that returns has generated exactly one orbit
    per pair of parameters, row by row. *)
Theorem calc_lya_henon_one_orbit_per_cell (As Bs : list float)
  (t : list call) (r : retval) :
  calc_lya_henon O Ninit cutoff start div (NdArray As) (NdArray Bs)
  = (t, Ok r) ->
  orbits_generated t = list_prod As Bs.
Proof.
  rewrite (grid_collect O Ninit cutoff start div As Bs).
  destruct (tfor_each As _ _) as [t1 [[g1 g2]|err]] eqn:E; simpl;
    [|discriminate].
  intros [= <- _]. rewrite app_nil_r.
  apply (collect_orbits _ (fun a => map (fun b => (a, b)) Bs)) in E.
  - rewrite E. clear. induction As as [|a As IH]; simpl; congruence.
  - intros a t' [row1 row2] _ Hrow.
    apply (collect_orbits _ (fun b => [(a, b)])) in Hrow.
    + rewrite Hrow. clear. induction Bs as [|b Bs IH]; simpl; congruence.
    + intros b tb e _. apply sweep_cell_one_orbit.
Qed.

Lemma grid_1x1 (a b : float) (tc : list call) (e1 e2 : option float) :
  sweep_cell O Ninit cutoff start div (Some (basis (length start))) a b
  = (tc, Ok (e1, e2)) ->
  calc_lya_henon O Ninit cutoff start div (NdArray [a]) (NdArray [b])
  = (tc, Ok (RetGrid [[e1]] [[e2]])).
Proof.
  intros H. unfold calc_lya_henon, sweep_row. simpl. rewrite H. simpl.
  now rewrite !app_nil_r.
Qed.

(** The scalar call and the sweep over two one-element arrays agree: when
    the orbit does not diverge and the scalar call returns a list of
    exponents, the single cell of the sweep records the [max] and the
    [min] of that list. *)
Theorem calc_lya_henon_scalar_agrees_with_grid (A B : pyarg)
  (x0 y0 : float) (rest xs : list float) (yvalues : option (list float))
  (t : list call) (r : retval) :
  is_scalar A = true -> is_scalar B = true ->
  start = x0 :: y0 :: rest ->
  Henon O x0 y0 Ninit (scalar_value A) (scalar_value B) div
  = (Some xs, yvalues) ->
  calc_lya_henon O Ninit cutoff start div A B = (t, Ok r) ->
  exists lya hi lo t',
    r = RetList lya /\ pymax_list lya = Ok hi /\ pymin_list lya = Ok lo /\
    calc_lya_henon O Ninit cutoff start div
      (NdArray [scalar_value A]) (NdArray [scalar_value B])
    = (t', Ok (RetGrid [[Some hi]] [[Some lo]])).
Proof.
  intros HA HB Hstart HH.
  assert (E : calc_lya_henon O Ninit cutoff start div A B
              = scalar_case O Ninit cutoff start div
                  (scalar_value A) (scalar_value B)).
  { unfold calc_lya_henon, is_scalar in *.
    destruct A, B; simpl in *; try discriminate; reflexivity. }
  rewrite E. clear E.
  set (a := scalar_value A) in *. set (b := scalar_value B) in *.
  assert (G : forall tc e1 e2 lya hi lo,
            sweep_cell O Ninit cutoff start div
              (Some (basis (length start))) a b = (tc, Ok (e1, e2)) ->
            e1 = Some hi -> e2 = Some lo ->
            r = RetList lya -> pymax_list lya = Ok hi ->
            pymin_list lya = Ok lo ->
            exists lya hi lo t',
              r = RetList lya /\ pymax_list lya = Ok hi /\
              pymin_list lya = Ok lo /\
              calc_lya_henon O Ninit cutoff start div
                (NdArray [a]) (NdArray [b])
              = (t', Ok (RetGrid [[Some hi]] [[Some lo]]))).
  { intros tc e1 e2 lya hi lo Hc -> -> Hr Hmax Hmin.
    exists lya, hi, lo, tc. repeat split; auto. now apply grid_1x1. }
  revert G. unfold scalar_case, sweep_cell, cell_generic. subst start.
  simpl. rewrite HH. simpl.
  destruct (determine_point O (Some xs) yvalues) as [[p|]|]; simpl;
    try discriminate;
    (destruct (determine_period O (Some xs) yvalues) as [[c|]|]; simpl;
     try discriminate).
  - intros G [= _ <-].
    rewrite (lyapunov_point_branches O (fst p) a b) in *. simpl in G.
    destruct (pymax_pymin_idempotent
                (nth 0 (lyapunov_point O (fst p) a b) NaN)
                (nth 1 (lyapunov_point O (fst p) a b) NaN)) as [Hmax Hmin].
    rewrite lyapunov_point_branches in Hmax, Hmin. simpl in Hmax, Hmin.
    eapply G; try reflexivity.
    + simpl. f_equal. unfold lyapunov_point.
      destruct (solve_eig_vals O (fst p) a b). simpl.
      apply pymax_pymin_idempotent.
    + simpl. f_equal. unfold lyapunov_point.
      destruct (solve_eig_vals O (fst p) a b). simpl.
      apply pymax_pymin_idempotent.
  - intros G [= _ <-].
    rewrite (lyapunov_point_branches O (fst p) a b) in *. simpl in G.
    eapply G; try reflexivity.
    + simpl. f_equal. unfold lyapunov_point.
      destruct (solve_eig_vals O (fst p) a b). simpl.
      apply pymax_pymin_idempotent.
    + simpl. f_equal. unfold lyapunov_point.
      destruct (solve_eig_vals O (fst p) a b). simpl.
      apply pymax_pymin_idempotent.
  - unfold lyapunov_period. rewrite period_loop. simpl.
    intros G [= _ <-]. eapply G; try reflexivity.
    + simpl. f_equal. apply pymax_pymin_idempotent.
    + simpl. f_equal. apply pymax_pymin_idempotent.
  - destruct (Lyapunov _ _ _ a b) as [lya|] eqn:EL; simpl; [|discriminate].
    intros G [= _ <-].
    apply Lyapunov_result_length in EL. rewrite basis_length in EL.
    simpl in EL. destruct lya as [|l0 lya]; [discriminate|].
    simpl in G. eapply G; reflexivity.
Qed.

(** With fewer than two start coordinates and at least one cell to
    compute, [calc_lya_henon] raises [IndexError] before any call. *)
Theorem calc_lya_henon_short_start (A B : pyarg) :
  (length start < 2)%nat ->
  supported_combination A B = true ->
  array_not_empty A -> array_not_empty B ->
  calc_lya_henon O Ninit cutoff start div A B = ([], Raise IndexError).
Proof.
  intros Hlen Hsup HA HB.
  destruct start as [|x0 [|y0 rest]]; [| |simpl in Hlen; lia];
    destruct A as [x|z|[|a As]|], B as [y|w|[|b Bs]|];
    simpl in *; try discriminate; try contradiction; reflexivity.
Qed.


(** [create_lya_grid] on two scalars whose orbit diverges does not return
    a sentinel: the scalar call returns [None], and indexing the array
    made of it raises [IndexError]. *)
Theorem create_lya_grid_scalar_diverged (A B : pyarg) (x0 y0 : float)
  (rest : list float) (yvalues : option (list float))
  (p : option (float * float)) (c : option (Z * list float)) :
  is_scalar A = true -> is_scalar B = true ->
  start = x0 :: y0 :: rest ->
  Henon O x0 y0 Ninit (scalar_value A) (scalar_value B) div
  = (None, yvalues) ->
  determine_point O None yvalues = Ok p ->
  determine_period O None yvalues = Ok c ->
  create_lya_grid O A B start Ninit cutoff div
  = ([CallHenon x0 y0 Ninit (scalar_value A) (scalar_value B) div;
      CallDeterminePoint None yvalues; CallDeterminePeriod None yvalues],
     Raise IndexError).
Proof.
  intros HA HB -> HH Hp Hc. unfold create_lya_grid.
  assert (E : calc_lya_henon O Ninit cutoff (x0 :: y0 :: rest) div A B
              = scalar_case O Ninit cutoff (x0 :: y0 :: rest) div
                  (scalar_value A) (scalar_value B)).
  { unfold calc_lya_henon, is_scalar in *.
    destruct A, B; simpl in *; try discriminate; reflexivity. }
  rewrite E. unfold scalar_case. simpl. rewrite HH. simpl.
  rewrite Hp, Hc. reflexivity.
Qed.

End DispatcherAgreement.

Lemma calc_lya_henon_one_orbit_per_cell_witness :
  orbits_generated
    [CallHenon (Fin 0) (Fin 0) 10 (Fin 1) (Fin 3) true;
     CallHenon (Fin 0) (Fin 0) 10 (Fin 2) (Fin 3) true]
  = list_prod [Fin 1; Fin 2] [Fin 3].
Proof.
  apply (calc_lya_henon_one_orbit_per_cell
           (sample_oracles None None None None) 10 0 [Fin 0; Fin 0] true
           [Fin 1; Fin 2] [Fin 3] _
           (RetGrid [[None]; [None]] [[None]; [None]])).
  reflexivity.
Defined.

Lemma calc_lya_henon_scalar_agrees_with_grid_witness :
  let O := sample_oracles (Some [Fin 0; Fin 1]) (Some [Fin 0; Fin 0])
             (Some (Fin 0, Fin 0)) None in
  exists lya hi lo t',
    RetList (lyapunov_point O (Fin 0) (Fin 1) (Fin 1)) = RetList lya /\
    pymax_list lya = Ok hi /\ pymin_list lya = Ok lo /\
    calc_lya_henon O 2 1 [Fin 0; Fin 0] true
      (NdArray [Fin 1]) (NdArray [Fin 1])
    = (t', Ok (RetGrid [[Some hi]] [[Some lo]])).
Proof.
  intros O.
  apply (calc_lya_henon_scalar_agrees_with_grid O 2 1 [Fin 0; Fin 0] true
           (PyFloat (Fin 1)) (PyFloat (Fin 1)) (Fin 0) (Fin 0) []
           [Fin 0; Fin 1] (Some [Fin 0; Fin 0])
           [CallHenon (Fin 0) (Fin 0) 2 (Fin 1) (Fin 1) true;
            CallDeterminePoint (Some [Fin 0; Fin 1]) (Some [Fin 0; Fin 0]);
            CallDeterminePeriod (Some [Fin 0; Fin 1]) (Some [Fin 0; Fin 0]);
            CallLyapunovPoint (Fin 0) (Fin 1) (Fin 1)]);
    reflexivity.
Defined.

Lemma calc_lya_henon_short_start_witness :
  calc_lya_henon (sample_oracles None None None None) 10 0 [Fin 0] true
    (NdArray [Fin 1]) (PyFloat (Fin 3))
  = ([], Raise IndexError).
Proof.
  apply (calc_lya_henon_short_start (sample_oracles None None None None)).
  - simpl. lia.
  - reflexivity.
  - exact I.
  - exact I.
Defined.


Lemma create_lya_grid_scalar_diverged_witness :
  create_lya_grid (sample_oracles None None None None)
    (PyFloat (Fin 2)) (PyFloat (Fin (3 / 10))) [Fin 0; Fin 0] 10000 1000 true
  = ([CallHenon (Fin 0) (Fin 0) 10000 (Fin 2) (Fin (3 / 10)) true;
      CallDeterminePoint None None; CallDeterminePeriod None None],
     Raise IndexError).
Proof.
  apply (create_lya_grid_scalar_diverged
           (sample_oracles None None None None) 10000 1000 [Fin 0; Fin 0]
           true (PyFloat (Fin 2)) (PyFloat (Fin (3 / 10))) (Fin 0) (Fin 0)
           [] None None None);
    reflexivity.
Defined.
